(** * SpotifyTestApp: the secret cache and the genre aggregator

    A shallow embedding of [src/util.py], [src/file_handler.py] and the
    logic part of [src/playlist_info.py], with the properties of the
    repository's specification stated and proved over it.

    Conventions of the embedding.
    - A Python [str] and a Python [bytes] are both a [string]; [.encode()]
      and [.decode()] pass the characters through.
    - A [dict] is an insertion-ordered association list with distinct keys.
    - The operating system is a [world]: a file system, a clock and the
      number of draws made so far from the system's random source. Times
      are integers: the source's float seconds at a fixed resolution.
    - A computation that touches the world is a function
      [world -> result A * world]; an exception leaves the world as it was
      when it was raised. *)

From Stdlib Require Import ZArith String Ascii List Lia Bool DecimalString Permutation Sorted.
From stdpp Require Import base option list strings gmap.

Local Open Scope string_scope.
Local Open Scope Z_scope.

Set Warnings "-register-all".

(** ** Python values, exceptions and dicts *)

Module Py.

Inductive exn :=
| KeyError (key : string)
| FileNotFoundError (path : string)
| IsADirectoryError (path : string)
| NotADirectoryError (path : string)
| JSONDecodeError
| UnicodeDecodeError
| AttributeError
| ValueError (msg : string)
| InvalidToken
| UnboundLocalError (name : string).

Inductive result (A : Type) :=
| Ok (a : A)
| Raise (e : exn).
Arguments Ok {A} a.
Arguments Raise {A} e.

(** What [json.load] can return and [json.dump] can take. *)
Inductive value :=
| VNone
| VBool (b : bool)
| VInt (z : Z)
| VStr (s : string)
| VList (l : list value)
| VDict (d : list (string * value)).

Definition dict := list (string * value).

(** [d.get(k)] *)
Fixpoint dict_get (k : string) (d : dict) : option value :=
  match d with
  | [] => None
  | (k', v) :: d' => if String.eqb k k' then Some v else dict_get k d'
  end.

(** [del d[k]] on a dict that may or may not hold [k] *)
Fixpoint dict_remove (k : string) (d : dict) : dict :=
  match d with
  | [] => []
  | (k', v) :: d' =>
      if String.eqb k k' then dict_remove k d' else (k', v) :: dict_remove k d'
  end.

(** [d.pop(k)]: the value and the dict without [k], or [KeyError]. *)
Definition dict_pop (k : string) (d : dict) : result (value * dict) :=
  match dict_get k d with
  | Some v => Ok (v, dict_remove k d)
  | None => Raise (KeyError k)
  end.

(** [d[k] = v]: in place when [k] is a key of [d], at the end otherwise. *)
Fixpoint dict_set (k : string) (v : value) (d : dict) : dict :=
  match d with
  | [] => [(k, v)]
  | (k', v') :: d' =>
      if String.eqb k k' then (k', v) :: d' else (k', v') :: dict_set k v d'
  end.

(** [v in names] for a tuple of strings: equality with one of them, which
    only a [str] can have. *)
Definition value_in (v : value) (names : list string) : bool :=
  match v with
  | VStr s => existsb (String.eqb s) names
  | _ => false
  end.

(** [v.encode()]: only a [str] has the method. *)
Definition encode (v : value) : result string :=
  match v with
  | VStr s => Ok s
  | _ => Raise AttributeError
  end.

(** [d.items()]: only a dict has the method. *)
Definition items (v : value) : result dict :=
  match v with
  | VDict d => Ok d
  | _ => Raise AttributeError
  end.

(** Truth value of [Optional[Dict]]: [None] and [{}] are false. *)
Definition truthy (c : option dict) : bool :=
  match c with
  | Some (_ :: _) => true
  | _ => false
  end.

End Py.
Export Py.

(** ** The operating system *)

Module OS.

(** What a file holds: the JSON text of a value, as [json.dump] writes it
    and [json.load] reads it back, or bytes that are not a JSON text (a
    key, an empty or damaged file). *)
Inductive content :=
| Raw (bytes : string)
| Json (v : value).

Inductive node :=
| File (data : content) (mtime : Z)
| Dir (mtime : Z).

Record world := World {
  fs : gmap string node;
  clock : Z;
  urandom_calls : nat
}.

Definition mtime_of (n : node) : Z :=
  match n with
  | File _ t => t
  | Dir t => t
  end.

(** [Some d] when [p] has a slash, [d] being what stands before the last
    one. *)
Fixpoint split_last_slash (p : string) : option string :=
  match p with
  | EmptyString => None
  | String c p' =>
      match split_last_slash p' with
      | Some d => Some (String c d)
      | None => if Ascii.eqb c "/" then Some EmptyString else None
      end
  end.

(** [os.path.dirname] of a relative path. *)
Definition dirname (p : string) : string :=
  match split_last_slash p with
  | Some d => d
  | None => EmptyString
  end.

(** What stands before each slash of a path, the longest first. *)
Fixpoint ancestors_from (fuel : nat) (p : string) : list string :=
  match fuel with
  | O => []
  | S fuel' =>
      match split_last_slash p with
      | Some d => d :: ancestors_from fuel' d
      | None => []
      end
  end.

(** A path made of dots and slashes only: the current directory or one
    above it, which always exists. *)
Definition dot_path (p : string) : bool :=
  forallb (fun c => Ascii.eqb c "." || Ascii.eqb c "/") (list_ascii_of_string p).

(** The directories a path goes through that the disk may lack, the
    nearest first. *)
Definition ancestors (p : string) : list string :=
  List.filter (fun d => negb (dot_path d)) (ancestors_from (String.length p) p).

(** The first of [ds] that the disk has an entry for. *)
Fixpoint nearest_entry (ds : list string) (w : world) : option node :=
  match ds with
  | [] => None
  | d :: ds' =>
      match fs w !! d with
      | Some n => Some n
      | None => nearest_entry ds' w
      end
  end.

(** What [open] and [os.stat] raise for a path without an entry: the
    nearest ancestor that has one decides. A regular file standing where
    a directory of the path should be gives [NotADirectoryError], a
    missing entry under a directory (or no entry at all on the way)
    [FileNotFoundError]. *)
Definition missing_error (p : string) (w : world) : exn :=
  match nearest_entry (ancestors p) w with
  | Some (File _ _) => NotADirectoryError p
  | _ => FileNotFoundError p
  end.

Definition M (A : Type) : Type := world -> result A * world.

Definition ret {A} (a : A) : M A := fun w => (Ok a, w).

Definition raise {A} (e : exn) : M A := fun w => (Raise e, w).

Definition bind {A B} (m : M A) (k : A -> M B) : M B :=
  fun w =>
    match m w with
    | (Ok a, w') => k a w'
    | (Raise e, w') => (Raise e, w')
    end.

Definition lift {A} (r : result A) : M A := fun w => (r, w).

(** [os.path.exists(p)] *)
Definition os_path_exists (p : string) : M bool :=
  fun w => (Ok (bool_decide (is_Some (fs w !! p))), w).

(** [os.path.getmtime(p)] *)
Definition os_path_getmtime (p : string) : M Z :=
  fun w =>
    match fs w !! p with
    | Some n => (Ok (mtime_of n), w)
    | None => (Raise (missing_error p w), w)
    end.

(** [time.time()] *)
Definition time_time : M Z := fun w => (Ok (clock w), w).

(** [os.urandom(n)]: the draw is named by its rank. *)
Definition os_urandom : M nat :=
  fun w =>
    (Ok (urandom_calls w),
     World (fs w) (clock w) (S (urandom_calls w))).

(** [open(p, 'r')] or [open(p, 'rb')], followed by reading the whole
    file. *)
Definition read_file (p : string) : M content :=
  fun w =>
    match fs w !! p with
    | Some (File c _) => (Ok c, w)
    | Some (Dir _) => (Raise (IsADirectoryError p), w)
    | None => (Raise (missing_error p w), w)
    end.

(** [open(p, 'w')] or [open(p, 'wb')], followed by writing [c] and closing:
    an existing file is replaced; a new one needs its directory, whose
    modification time changes with the new entry. Nothing creates a
    directory: without the directory the call raises what the ancestors
    of [p] decide. *)
Definition write_file (p : string) (c : content) : M unit :=
  fun w =>
    match fs w !! p with
    | Some (File _ _) =>
        (Ok tt, World (<[p := File c (clock w)]> (fs w)) (clock w) (urandom_calls w))
    | Some (Dir _) => (Raise (IsADirectoryError p), w)
    | None =>
        match fs w !! dirname p with
        | Some (Dir _) =>
            (Ok tt,
             World (<[p := File c (clock w)]> (<[dirname p := Dir (clock w)]> (fs w)))
                   (clock w) (urandom_calls w))
        | _ => (Raise (missing_error p w), w)
        end
    end.

(** [open(p, 'w')] would succeed: [p] is a file, or is absent from an
    existing directory. *)
Definition writable (p : string) (w : world) : Prop :=
  match fs w !! p with
  | Some (File _ _) => True
  | Some (Dir _) => False
  | None => exists t, fs w !! dirname p = Some (Dir t)
  end.

(** The world after [c] was written to [p]. *)
Definition written (p : string) (c : content) (w : world) : world :=
  match fs w !! p with
  | Some _ =>
      World (<[p := File c (clock w)]> (fs w)) (clock w) (urandom_calls w)
  | None =>
      World (<[p := File c (clock w)]> (<[dirname p := Dir (clock w)]> (fs w)))
            (clock w) (urandom_calls w)
  end.

(** Between [w] and [w'] nothing changed but, possibly, the count of
    random draws. *)
Definition same_disk (w w' : world) : Prop := fs w' = fs w /\ clock w' = clock w.

(** A continuation byte of UTF-8. *)
Definition continuation (b : nat) : bool :=
  ((128 <=? b) && (b <=? 191))%nat.

(** The strict UTF-8 decoder accepts the bytes: no stray or missing
    continuation byte, no overlong form, no surrogate, nothing above
    U+10FFFF. *)
Fixpoint utf8_valid (l : list nat) : bool :=
  match l with
  | [] => true
  | b :: l1 =>
      if (b <? 128)%nat then utf8_valid l1
      else
        match l1 with
        | [] => false
        | c1 :: l2 =>
            if ((194 <=? b) && (b <=? 223))%nat then
              continuation c1 && utf8_valid l2
            else
              match l2 with
              | [] => false
              | c2 :: l3 =>
                  if ((224 <=? b) && (b <=? 239))%nat then
                    (if (b =? 224)%nat then (160 <=? c1)%nat else true)
                    && (if (b =? 237)%nat then (c1 <=? 159)%nat else true)
                    && continuation c1 && continuation c2 && utf8_valid l3
                  else
                    match l3 with
                    | [] => false
                    | c3 :: l4 =>
                        ((240 <=? b) && (b <=? 244))%nat
                        && (if (b =? 240)%nat then (144 <=? c1)%nat else true)
                        && (if (b =? 244)%nat then (c1 <=? 143)%nat else true)
                        && continuation c1 && continuation c2
                        && continuation c3 && utf8_valid l4
                    end
              end
        end
  end.

(** The bytes of a file opened in text mode decode: [open(p, 'r')] names
    no encoding, so the platform's is used, taken to be UTF-8. *)
Definition text_decodes (bytes : string) : bool :=
  utf8_valid (map nat_of_ascii (list_ascii_of_string bytes)).

(** [json.load(f)] on what was read in text mode: [f.read()] decodes the
    bytes, raising [UnicodeDecodeError] when they are not text, and the
    parser raises [JSONDecodeError] on text that is not JSON. *)
Definition json_load (c : content) : result value :=
  match c with
  | Json v => Ok v
  | Raw bytes =>
      if text_decodes bytes then Raise JSONDecodeError
      else Raise UnicodeDecodeError
  end.

End OS.
Export OS.

Notation "'let!' x ':=' m 'in' k" := (bind m (fun x => k))
  (at level 10, x pattern, m at level 100, k at level 200).

(** A dict comprehension [{k: f(k, v) for k, v in d.items()}] whose body
    touches the world: entries are visited in the dict's order. *)
Fixpoint dict_comprehension (f : string -> value -> M value) (d : dict) : M dict :=
  match d with
  | [] => ret []
  | (k, v) :: d' =>
      let! v' := f k v in
      let! d'' := dict_comprehension f d' in
      ret ((k, v') :: d'')
  end.

(** ** The [cryptography.fernet] interface

    The library is outside the repository: its operations are taken as
    given. [generate_key] and [encrypt] are functions of the random draw
    (and, for [encrypt], of the time) they make. *)

Record FernetLib := {
  fernet : Type;
  generate_key : nat -> string;
  Fernet : content -> option fernet;
  encrypt : fernet -> Z -> nat -> string -> string;
  decrypt : fernet -> string -> option string
}.

(** What the library promises: a generated key is accepted by the
    constructor, and a token decrypts under the key it was made with. *)
Record FernetLaws (L : FernetLib) : Prop := {
  generate_key_accepted : forall n, is_Some (Fernet L (Raw (generate_key L n)));
  decrypt_encrypt : forall f t iv m, decrypt L f (encrypt L f t iv m) = Some m
}.

(** ** [util.py] *)

Module util.
Section with_fernet.
Context (L : FernetLib).

Definition key_file : string := "../cache/keys/spotify.key".

(** [Fernet(b)]: [ValueError] unless [b] is a well-formed key. *)
Definition Fernet_new (c : content) : M (fernet L) :=
  match Fernet L c with
  | Some f => ret f
  | None => raise (ValueError "Fernet key must be 32 url-safe base64-encoded bytes.")
  end.

(** [Fernet.generate_key()] *)
Definition Fernet_generate_key : M string :=
  let! n := os_urandom in ret (generate_key L n).

Definition get_fernet_key : M (fernet L) :=
  let! present := os_path_exists key_file in
  if present then
    let! b := read_file key_file in
    Fernet_new b
  else
    let! key := Fernet_generate_key in
    let! _ := write_file key_file (Raw key) in
    Fernet_new (Raw key).

(** [f.encrypt(v.encode()).decode()] *)
Definition encrypt_str (f : fernet L) (v : value) : M value :=
  let! b := lift (encode v) in
  let! t := time_time in
  let! iv := os_urandom in
  ret (VStr (encrypt L f t iv b)).

(** [f.decrypt(v.encode()).decode()] *)
Definition decrypt_str (f : fernet L) (v : value) : M value :=
  let! b := lift (encode v) in
  match decrypt L f b with
  | Some m => ret (VStr m)
  | None => raise InvalidToken
  end.

(** The world after the key file was created in an existing directory. *)
Definition key_created (w : world) : world :=
  World (<[key_file := File (Raw (generate_key L (urandom_calls w))) (clock w)]>
           (<[dirname key_file := Dir (clock w)]> (fs w)))
        (clock w) (S (urandom_calls w)).

(** The key file holds the key [f]. *)
Definition key_file_holds (w : world) (f : fernet L) : Prop :=
  exists c t, fs w !! key_file = Some (File c t) /\ Fernet L c = Some f.

End with_fernet.

(** [string.ascii_letters + string.digits] *)
Definition chars : string :=
  "abcdefghijklmnopqrstuvwxyzABCDEFGHIJKLMNOPQRSTUVWXYZ0123456789".

(** [secrets.choice(chars)]. The position [secrets] draws is a function
    [randbelow] of the draw's rank and of the bound, taken below the
    bound; one draw stands for the reads of the random source it takes.
    [chars] is not empty, so a character is always found. *)
Definition secrets_choice (randbelow : nat -> nat -> nat) : M ascii :=
  let! n := os_urandom in
  match String.get (Nat.modulo (randbelow n (String.length chars)) (String.length chars))
                   chars with
  | Some c => ret c
  | None => ret "a"%char
  end.

(** [''.join(secrets.choice(chars) for _ in range(n))] *)
Fixpoint join_choices (randbelow : nat -> nat -> nat) (n : nat) : M string :=
  match n with
  | O => ret EmptyString
  | S n' =>
      let! c := secrets_choice randbelow in
      let! s := join_choices randbelow n' in
      ret (String c s)
  end.

(** [range(length)] is empty for a negative [length]. *)
Definition generate_random_str (randbelow : nat -> nat -> nat) (length : Z) : M string :=
  join_choices randbelow (Z.to_nat length).

End util.

(** ** [file_handler.py] *)

Module file_handler.
Section with_fernet.
Context (L : FernetLib).

(** *** [class CredentialsFileHandler] *)

Record CredentialsFileHandler := {
  credentials_fernet_key : fernet L;
  credentials : option dict
}.

Definition credentials_path : string := "../cache/spotify_credentials.json".

(** The [try] block of [retrieve_credentials]. *)
Definition load_credentials_data : M value :=
  let! c := read_file credentials_path in
  lift (json_load c).

(** Its [else] block. *)
Definition decrypt_credentials (fernet_key : fernet L) (credentials_data : value) : M dict :=
  let! d := lift (items credentials_data) in
  dict_comprehension (fun _ v => util.decrypt_str L fernet_key v) d.

(** [try / except (FileNotFoundError, json.JSONDecodeError) / else /
    finally]. The [finally] block assigns and returns [credentials]: after
    an exception that the [except] clause does not catch, or one raised by
    the [else] block, the name is unbound and the assignment raises
    [UnboundLocalError] in place of the first exception. *)
Definition retrieve_credentials (self : CredentialsFileHandler)
  : M (option dict * CredentialsFileHandler) :=
  let! fernet_key := util.get_fernet_key L in
  fun w =>
    match load_credentials_data w with
    | (Raise (FileNotFoundError _), w') | (Raise JSONDecodeError, w') =>
        (Ok (None, {| credentials_fernet_key := credentials_fernet_key self;
                      credentials := None |}), w')
    | (Raise _, w') => (Raise (UnboundLocalError "credentials"), w')
    | (Ok credentials_data, w') =>
        match decrypt_credentials fernet_key credentials_data w' with
        | (Ok c, w'') =>
            (Ok (Some c, {| credentials_fernet_key := credentials_fernet_key self;
                            credentials := Some c |}), w'')
        | (Raise _, w'') => (Raise (UnboundLocalError "credentials"), w'')
        end
    end.

Definition save_credentials_to_file (self : CredentialsFileHandler)
    (creds : option dict) : M unit :=
  let creds := if truthy creds then creds else credentials self in
  let! d := match creds with
            | Some d => ret d
            | None => raise AttributeError
            end in
  let! encrypted_credentials :=
    dict_comprehension (fun _ v => util.encrypt_str L (credentials_fernet_key self) v) d in
  write_file credentials_path (Json (VDict encrypted_credentials)).

(** [CredentialsFileHandler()] *)
Definition CredentialsFileHandler_init : M CredentialsFileHandler :=
  let! k := util.get_fernet_key L in
  let! r := retrieve_credentials {| credentials_fernet_key := k; credentials := None |} in
  ret (snd r).

(** *** [class CustomCacheFileHandler] *)

Record CustomCacheFileHandler := {
  cache_path : string;
  fernet_key : fernet L
}.

Definition CUSTOM_CACHE_PATH : string := "../cache/token_cache.json".

Definition ATTRS_TO_ENCRYPT : list string := ["access_token"; "refresh_token"].

Definition REFRESH_INTERVAL : Z := 100.

(** [CustomCacheFileHandler()] *)
Definition CustomCacheFileHandler_init : M CustomCacheFileHandler :=
  let! k := util.get_fernet_key L in
  ret {| cache_path := CUSTOM_CACHE_PATH; fernet_key := k |}.

Definition is_cache_fresh (self : CustomCacheFileHandler) : M bool :=
  let! present := os_path_exists (cache_path self) in
  if present then
    let! file_modification_time := os_path_getmtime (cache_path self) in
    let! current_time := time_time in
    ret (current_time - file_modification_time <? REFRESH_INTERVAL)
  else ret false.

(** The comprehension tests the value [v], not the key [k], against
    [ATTRS_TO_ENCRYPT]. *)
Definition save_token_to_cache (self : CustomCacheFileHandler) (token_info : dict) : M unit :=
  let! fresh := is_cache_fresh self in
  if negb fresh then
    let! encrypted_token_info :=
      dict_comprehension
        (fun k v => if value_in v ATTRS_TO_ENCRYPT
                    then util.encrypt_str L (fernet_key self) v
                    else ret v)
        token_info in
    let! popped := lift (dict_pop "expires_in" encrypted_token_info) in
    let encrypted_token_info := dict_set "expires_at" (fst popped) (snd popped) in
    write_file (cache_path self) (Json (VDict encrypted_token_info))
  else ret tt.

Definition get_cached_token (self : CustomCacheFileHandler) : M (option dict) :=
  let! present := os_path_exists (cache_path self) in
  if present then
    let! c := read_file (cache_path self) in
    let! token_info := lift (json_load c) in
    let! d := lift (items token_info) in
    let! decrypted_token_info :=
      dict_comprehension
        (fun k v => if value_in v ATTRS_TO_ENCRYPT
                    then util.decrypt_str L (fernet_key self) v
                    else ret v)
        d in
    ret (Some decrypted_token_info)
  else ret None.

(** Truth value of a value. *)
Definition value_truthy (v : value) : bool :=
  match v with
  | VNone => false
  | VBool b => b
  | VInt z => negb (z =? 0)
  | VStr s => negb (String.eqb s "")
  | VList l => match l with [] => false | _ => true end
  | VDict d => match d with [] => false | _ => true end
  end.

(** [self.credentials[field]] under [if self.credentials:], the value
    [None] otherwise: the body of the properties [client_id] and
    [client_secret]. *)
Definition credentials_field (self : CredentialsFileHandler) (field : string) : result value :=
  if truthy (credentials self) then
    match credentials self with
    | Some d =>
        match dict_get field d with
        | Some v => Ok v
        | None => Raise (KeyError field)
        end
    | None => Ok VNone
    end
  else Ok VNone.

Definition client_id (self : CredentialsFileHandler) : result value :=
  credentials_field self "client_id".

Definition client_secret (self : CredentialsFileHandler) : result value :=
  credentials_field self "client_secret".

(** [self.client_id and self.client_secret]: the first operand when it is
    false, the second otherwise. *)
Definition has_credentials (self : CredentialsFileHandler) : result value :=
  match client_id self with
  | Ok v => if value_truthy v then client_secret self else Ok v
  | Raise e => Raise e
  end.

(** The cache file is missing, or at least [REFRESH_INTERVAL] old. *)
Definition cache_stale (self : CustomCacheFileHandler) (w : world) : Prop :=
  match fs w !! cache_path self with
  | Some n => REFRESH_INTERVAL <= clock w - mtime_of n
  | None => True
  end.

End with_fernet.
End file_handler.

(** ** [playlist_info.py]: the logic of [MainCanvas] *)

Module playlist_info.

Local Open Scope nat_scope.

(** *** The part of [re] the two patterns use

      A backtracking matcher in continuation-passing style: greedy [?] and
      [+], numbered groups, [^] at the start of the string and [$] at its
      end or before its last newline. A [string] holds the code points
      below 256. *)

Inductive regex :=
| Eps
| Lit (c : ascii)
| Class (p : ascii -> bool)
| Seq (r1 r2 : regex)
| Opt (r : regex)
| Plus (r : regex)
| Group (i : nat) (r : regex)
| Bol
| Eol.

Record mstate := MState {
  pos : nat;
  rest : string;
  groups : list (nat * string)
}.

Definition advance (st : mstate) (rest' : string) : mstate :=
  MState (S (pos st)) rest' (groups st).

Fixpoint take (n : nat) (s : string) : string :=
  match n, s with
  | S n', String c s' => String c (take n' s')
  | _, _ => EmptyString
  end.

Definition close_group (i : nat) (st st' : mstate) : mstate :=
  MState (pos st') (rest st') ((i, take (pos st' - pos st) (rest st)) :: groups st').

Definition at_end (s : string) : bool :=
  match s with
  | EmptyString => true
  | String c EmptyString => Ascii.eqb c "010"
  | _ => false
  end.

(** Greedy repetition of [body], at least once and at most [S n] times:
    another round is tried before the rest of the pattern. *)
Fixpoint rplus (body : mstate -> (mstate -> option mstate) -> option mstate)
    (n : nat) (st : mstate) (k : mstate -> option mstate) : option mstate :=
  body st (fun st' =>
    match n with
    | O => k st'
    | S n' =>
        match rplus body n' st' k with
        | Some m => Some m
        | None => k st'
        end
    end).

Fixpoint rmatch (r : regex) (st : mstate) (k : mstate -> option mstate) : option mstate :=
  match r with
  | Eps => k st
  | Lit c =>
      match rest st with
      | String c' s' => if Ascii.eqb c c' then k (advance st s') else None
      | EmptyString => None
      end
  | Class p =>
      match rest st with
      | String c' s' => if p c' then k (advance st s') else None
      | EmptyString => None
      end
  | Seq r1 r2 => rmatch r1 st (fun st' => rmatch r2 st' k)
  | Opt r' =>
      match rmatch r' st k with
      | Some m => Some m
      | None => k st
      end
  | Plus r' => rplus (rmatch r') (String.length (rest st)) st k
  | Group i r' => rmatch r' st (fun st' => k (close_group i st st'))
  | Bol => if pos st =? 0 then k st else None
  | Eol => if at_end (rest st) then k st else None
  end.

(** [re.match(pattern, s)] *)
Definition re_match (pattern : regex) (s : string) : option mstate :=
  rmatch pattern (MState 0 s []) Some.

(** [m.group(i)] for a group that took part in the match. *)
Fixpoint group (i : nat) (gs : list (nat * string)) : string :=
  match gs with
  | [] => EmptyString
  | (j, s) :: gs' => if i =? j then s else group i gs'
  end.

Fixpoint lit (s : string) : regex :=
  match s with
  | EmptyString => Eps
  | String c s' => Seq (Lit c) (lit s')
  end.

Definition between (lo hi : nat) (c : ascii) : bool :=
  (lo <=? nat_of_ascii c) && (nat_of_ascii c <=? hi).

(** [[A-Za-z0-9]] *)
Definition alnum (c : ascii) : bool :=
  between 65 90 c || between 97 122 c || between 48 57 c.

(** [\w] of a [str] pattern: the alphanumeric code points of Unicode and
    the underscore; below 256 these are the ASCII ones and the letters and
    digits of Latin-1. *)
Definition word (c : ascii) : bool :=
  alnum c || Ascii.eqb c "_"
  || existsb (Nat.eqb (nat_of_ascii c)) [170; 178; 179; 181; 185; 186; 188; 189; 190]
  || between 192 214 c || between 216 246 c || between 248 255 c.

(** [r'^https://open\.spotify\.com/playlist/(\w+)'] *)
Definition playlist_url_pattern : regex :=
  Seq Bol (Seq (lit "https://open.spotify.com/playlist/") (Group 1 (Plus (Class word)))).

(** [r'^(spotify:playlist:)?[A-Za-z0-9]+$'] *)
Definition id_pattern : regex :=
  Seq Bol (Seq (Opt (Group 1 (lit "spotify:playlist:"))) (Seq (Plus (Class alnum)) Eol)).

(** [Some m] when [s] is [p] followed by [m]. *)
Fixpoint strip_prefix (p s : string) : option string :=
  match p, s with
  | EmptyString, _ => Some s
  | String a p', String b s' => if Ascii.eqb a b then strip_prefix p' s' else None
  | String _ _, EmptyString => None
  end.

(** The longest prefix of [s] in the class [p], and what follows it. *)
Fixpoint span (p : ascii -> bool) (s : string) : string * string :=
  match s with
  | EmptyString => (EmptyString, EmptyString)
  | String c s' =>
      if p c then (String c (fst (span p s')), snd (span p s')) else (EmptyString, s)
  end.

(** One or more ASCII letters and digits, up to the end of the string or
    to a newline that ends it. *)
Definition alnum_to_end (s : string) : bool :=
  match span alnum s with
  | (String _ _, more) => at_end more
  | (EmptyString, _) => false
  end.

(** What [id_pattern] describes: a bare identifier, with or without the
    prefix [spotify:playlist:]. *)
Definition is_bare_id (s : string) : bool :=
  match strip_prefix "spotify:playlist:" s with
  | Some tail => alnum_to_end tail || alnum_to_end s
  | None => alnum_to_end s
  end.

(** What [playlist_url_pattern] captures: the longest run of word
    characters after the playlist address, when there is one. *)
Definition captured_id (s : string) : option string :=
  match strip_prefix "https://open.spotify.com/playlist/" s with
  | Some tail =>
      match fst (span word tail) with
      | EmptyString => None
      | id => Some id
      end
  | None => None
  end.

Definition extract_playlist_id (input_str : string) : result string :=
  match re_match id_pattern input_str with
  | Some _ => Ok input_str
  | None =>
      match re_match playlist_url_pattern input_str with
      | Some m => Ok (group 1 (groups m))
      | None => Raise (ValueError ("Invalid playlist URL or playlist ID: " ++ input_str))
      end
  end.

(** *** The Spotify client, as far as the aggregator reads it *)

(** One entry of [results['items']]: the identifiers
    [track['track']['artists'][i]['id']]. *)
Record playlist_item := { track_artists : list string }.

(** What [playlist_tracks] returns. *)
Record page := {
  page_items : list playlist_item;
  page_next : option string;
  page_total : nat
}.

(** One entry of [response['artists']]; [artist_genres] is [None] when
    the object has no ['genres'] key. *)
Record artist_object := {
  artist_id : string;
  artist_genres : option (list string)
}.

Record Spotify := {
  playlist_tracks : string -> nat -> nat -> page;
  artists : list string -> list artist_object
}.

(** *** [collections.Counter] with string keys, in insertion order *)

Definition Counter := list (string * nat).

(** [c[k]]: a missing key counts 0 and is not added. *)
Fixpoint counter_get (k : string) (c : Counter) : nat :=
  match c with
  | [] => 0
  | (k', n) :: c' => if String.eqb k k' then n else counter_get k c'
  end.

(** [c[k] += n] *)
Fixpoint counter_add (k : string) (n : nat) (c : Counter) : Counter :=
  match c with
  | [] => [(k, 0 + n)]
  | (k', m) :: c' =>
      if String.eqb k k' then (k', m + n) :: c' else (k', m) :: counter_add k n c'
  end.

(** [sum(c.values())] *)
Definition counter_total (c : Counter) : nat := list_sum (map snd c).

(** Truth value of [results['next']]: [None] and [''] are false. *)
Definition has_next (next : option string) : bool :=
  match next with
  | Some (String _ _) => true
  | _ => false
  end.

(** The two [for] loops over one page. *)
Definition count_page (items : list playlist_item) (artists : Counter) : Counter :=
  fold_left
    (fun acc track =>
       fold_left (fun acc artist_id => counter_add artist_id 1 acc) (track_artists track) acc)
    items artists.

(** [(playlist_id, offset, limit)] of a [playlist_tracks] call. *)
Definition listing_call : Type := string * nat * nat.

(** The [while True] loop of [get_artist_counts], with the listing calls
    made so far; [None] when [fuel] iterations did not reach the
    [break]. *)
Fixpoint get_artist_counts_loop (fuel : nat) (spotapi : Spotify) (playlist_id : string)
    (artists : Counter) (offset limit : nat) (calls : list listing_call)
    : option (Counter * list listing_call) :=
  match fuel with
  | O => None
  | S fuel' =>
      let results := playlist_tracks spotapi playlist_id offset limit in
      let calls := (calls ++ [(playlist_id, offset, limit)])%list in
      let artists := count_page (page_items results) artists in
      if negb (has_next (page_next results)) then Some (artists, calls)
      else get_artist_counts_loop fuel' spotapi playlist_id artists (offset + limit) limit calls
  end.

Definition get_artist_counts (fuel : nat) (spotapi : Spotify) (playlist_id : string)
    : option (Counter * list listing_call) :=
  get_artist_counts_loop fuel spotapi playlist_id [] 0 100 [].

(** [range(start, stop, step)] for a positive [step]. *)
Definition range (start stop step : nat) : list nat :=
  map (fun j => start + j * step) (seq 0 (Nat.div (stop - start + (step - 1)) step)).

(** The loop over one artist of [artists_data]. *)
Definition fold_artist (artists : Counter) (genres : Counter) (artist : artist_object) : Counter :=
  fold_left
    (fun acc genre => counter_add genre (counter_get (artist_id artist) artists) acc)
    (default [] (artist_genres artist)) genres.

Definition get_genre_counts (spotapi : Spotify) (artists_count : Counter) : Counter :=
  let artist_ids := map fst artists_count in
  let batch_size := 50 in
  fold_left
    (fun genres i =>
       let batch := firstn batch_size (skipn i artist_ids) in
       let artists_data := artists spotapi batch in
       fold_left (fold_artist artists_count) artists_data genres)
    (range 0 (length artist_ids) batch_size) [].

(** [playlist_tracks(playlist_id)] with spotipy's defaults, [limit=100]
    and [offset=0]. *)
Definition get_track_total (spotapi : Spotify) (playlist_id : string) : nat :=
  page_total (playlist_tracks spotapi playlist_id 0 100).

Definition get_combined_genres (fuel : nat) (spotapi : Spotify) (playlist_id : string)
    : option (Counter * nat) :=
  match get_artist_counts fuel spotapi playlist_id with
  | Some (artists_count, _) =>
      Some (get_genre_counts spotapi artists_count, get_track_total spotapi playlist_id)
  | None => None
  end.

(** A source pages correctly over the tracks [ts] when each call returns
    the requested slice, and a next link exactly when tracks remain. *)
Definition pages_over (spotapi : Spotify) (playlist_id : string)
    (ts : list playlist_item) : Prop :=
  forall offset limit,
    page_items (playlist_tracks spotapi playlist_id offset limit)
      = firstn limit (skipn offset ts)
    /\ has_next (page_next (playlist_tracks spotapi playlist_id offset limit))
      = (offset + limit <? length ts).

(** The tracks the listing calls [calls] returned, in order. *)
Definition listed (spotapi : Spotify) (calls : list listing_call) : list playlist_item :=
  flat_map (fun c => page_items (playlist_tracks spotapi (fst (fst c)) (snd (fst c)) (snd c)))
           calls.

(** The artist objects the batched lookups of [get_genre_counts] return,
    in order. *)
Definition looked_up (spotapi : Spotify) (artists_count : Counter) : list artist_object :=
  flat_map (fun i => artists spotapi (firstn 50 (skipn i (map fst artists_count))))
           (range 0 (length (map fst artists_count)) 50).

(** How many times [k] is in [l]. *)
Definition occurrences (k : string) (l : list string) : nat :=
  length (List.filter (String.eqb k) l).

(** What one artist object adds to the count of [genre]. *)
Definition contribution (artists_count : Counter) (genre : string) (a : artist_object) : nat :=
  occurrences genre (default [] (artist_genres a)) * counter_get (artist_id a) artists_count.

(** [ceil(n / d)] *)
Definition ceil_div (n d : nat) : nat := (n + (d - 1)) / d.

(** The arguments of the [artists] calls of [get_genre_counts], in
    order. *)
Definition artist_batches (artists_count : Counter) : list (list string) :=
  map (fun i => firstn 50 (skipn i (map fst artists_count)))
      (range 0 (length (map fst artists_count)) 50).

(** A client that answers a lookup with one object per identifier asked,
    in order, each carrying its identifier. *)
Definition looks_up (spotapi : Spotify) (details : string -> artist_object) : Prop :=
  (forall ids, artists spotapi ids = map details ids)
  /\ (forall i, artist_id (details i) = i).

(** The genre tags of the artists of the tracks [ts], once per track and
    artist. *)
Definition played_tags (details : string -> artist_object) (ts : list playlist_item)
    : list string :=
  flat_map (fun i => default [] (artist_genres (details i))) (flat_map track_artists ts).

(** *** The report of [retrieve_playlist_data] *)

(** [(a[1], a[0]) <= (b[1], b[0])]: counts first, then names by code
    point. *)
Definition item_le (a b : string * nat) : bool :=
  (snd a <? snd b) || ((snd a =? snd b) && String.leb (fst a) (fst b)).

Fixpoint insert_desc (x : string * nat) (l : list (string * nat)) : list (string * nat) :=
  match l with
  | [] => [x]
  | y :: l' => if item_le y x then x :: y :: l' else y :: insert_desc x l'
  end.

(** [sorted(items, key=lambda item: (item[1], item[0]), reverse=True)]:
    the stable sort, largest key first, items of equal key in their
    original order. *)
Definition sorted_desc (items : list (string * nat)) : list (string * nat) :=
  fold_right insert_desc [] items.

(** [str(n)] for a count. *)
Definition str_of_nat (n : nat) : string := NilEmpty.string_of_uint (Nat.to_uint n).

(** ['\n'.join(lines)] *)
Fixpoint join_lines (lines : list string) : string :=
  match lines with
  | [] => EmptyString
  | [l] => l
  | l :: ls => l ++ String "010" (join_lines ls)
  end.

(** The text [retrieve_playlist_data] shows when tokens exist; [title] is
    [str.title]. *)
Definition report_text (title : string -> string) (playlist_data : Counter)
    (track_total : nat) : string :=
  let data_total := counter_total playlist_data in
  let genre_total := length (map fst playlist_data) in
  let sorted_data := sorted_desc playlist_data in
  ("Data: " ++ str_of_nat data_total ++ String "010" EmptyString)
  ++ ("Tracks: " ++ str_of_nat track_total ++ String "010" EmptyString)
  ++ ("Genres: " ++ str_of_nat genre_total ++ String "010" EmptyString)
  ++ join_lines (map (fun item => title (fst item) ++ ": " ++ str_of_nat (snd item))
                     sorted_data).

End playlist_info.

(** ** [playlist_info.py]: [MainCanvas.retrieve_playlist_data]

    The entry's text is the argument, the text put into the text widget
    the result; [None] when [fuel] iterations did not end the listing. *)

Module main_canvas.
Section with_fernet.
Context (L : FernetLib) (title : string -> string).

Import playlist_info.

Definition retrieve_playlist_data (CACHE_FILE_HANDLER : file_handler.CustomCacheFileHandler L)
    (fuel : nat) (spotapi : Spotify) (playlist_url : string) : M (option string) :=
  let! playlist_id := lift (extract_playlist_id playlist_url) in
  let! tokens := file_handler.get_cached_token L CACHE_FILE_HANDLER in
  if truthy tokens then
    match get_combined_genres fuel spotapi playlist_id with
    | Some (playlist_data, track_total) =>
        ret (Some (report_text title playlist_data track_total))
    | None => ret None
    end
  else ret (Some "Access token not found. Please authenticate first.").

End with_fernet.
End main_canvas.

(** ** [authorisation.py]: [build_auth_url] *)

Module authorisation.

Local Open Scope nat_scope.

Definition REDIRECT_URI : string := "https://github.com/LostInLunacy/".

Definition SCOPES : list string :=
  [ "user-library-read";
    "playlist-read-private";
    "playlist-read-collaborative";
    "playlist-modify-public";
    "playlist-modify-private";
    "user-library-read" ].

(** [sep.join(l)] *)
Fixpoint join (sep : string) (l : list string) : string :=
  match l with
  | [] => EmptyString
  | [x] => x
  | x :: l' => x ++ sep ++ join sep l'
  end.

(** The characters [urllib.parse.quote] never escapes: letters, digits
    and [_.-~]. *)
Definition always_safe (c : ascii) : bool :=
  playlist_info.alnum c
  || Ascii.eqb c "_" || Ascii.eqb c "." || Ascii.eqb c "-" || Ascii.eqb c "~".

Definition hex_digit (n : nat) : ascii :=
  match String.get n "0123456789ABCDEF" with
  | Some c => c
  | None => "0"%char
  end.

(** [%XX] for one byte. *)
Definition percent (byte : nat) : string :=
  String "%" (String (hex_digit (byte / 16)) (String (hex_digit (byte mod 16)) EmptyString)).

(** The UTF-8 bytes of a code point below 256. *)
Definition utf8 (c : ascii) : list nat :=
  let n := nat_of_ascii c in
  if n <? 128 then [n] else [192 + n / 64; 128 + n mod 64].

(** [urllib.parse.quote_plus(s)]: a space becomes [+], a safe character
    stays, every other one gives [%XX] for each byte of its UTF-8
    encoding. *)
Fixpoint quote_plus (s : string) : string :=
  match s with
  | EmptyString => EmptyString
  | String c s' =>
      (if Ascii.eqb c " " then "+"
       else if always_safe c then String c EmptyString
       else String.concat EmptyString (map percent (utf8 c)))
      ++ quote_plus s'
  end.

(** [urllib.parse.urlencode(params)] for a dict of strings. *)
Definition urlencode (params : list (string * string)) : string :=
  join "&" (map (fun kv => quote_plus (fst kv) ++ "=" ++ quote_plus (snd kv)) params).

Definition build_auth_url (client_id : string) : string :=
  let params :=
    [ ("client_id", client_id);
      ("response_type", "code");
      ("redirect_uri", REDIRECT_URI);
      ("scope", join " " SCOPES) ] in
  "https://accounts.spotify.com/authorize?" ++ urlencode params.

(** How many times [c] is in [s]. *)
Fixpoint count_char (c : ascii) (s : string) : nat :=
  match s with
  | EmptyString => 0
  | String c' s' => (if Ascii.eqb c c' then 1 else 0) + count_char c s'
  end.

(** The characters [quote_plus] can produce. *)
Definition query_safe (c : ascii) : bool :=
  always_safe c || Ascii.eqb c "+" || Ascii.eqb c "%".

(** A reading back of what [quote_plus] produces, after
    [urllib.parse.unquote_plus]; the source never decodes, the reading
    serves to show that [quote_plus] loses nothing. *)
Definition hex_value (c : ascii) : nat :=
  let n := nat_of_ascii c in
  if (48 <=? n) && (n <=? 57) then n - 48 else n - 55.

Fixpoint unquote_bytes (fuel : nat) (s : string) : list nat :=
  match fuel with
  | O => []
  | S fuel' =>
      match s with
      | EmptyString => []
      | String c s' =>
          if Ascii.eqb c "%" then
            match s' with
            | String h (String l s'') =>
                (16 * hex_value h + hex_value l) :: unquote_bytes fuel' s''
            | _ => []
            end
          else (if Ascii.eqb c "+" then 32 else nat_of_ascii c) :: unquote_bytes fuel' s'
      end
  end.

(** UTF-8 decoding of the bytes of code points below 256. *)
Fixpoint utf8_decode (bytes : list nat) : string :=
  match bytes with
  | [] => EmptyString
  | b :: bytes' =>
      if b <? 128 then String (ascii_of_nat b) (utf8_decode bytes')
      else
        match bytes' with
        | b' :: bytes'' =>
            String (ascii_of_nat ((b - 192) * 64 + (b' - 128))) (utf8_decode bytes'')
        | [] => EmptyString
        end
  end.

Definition unquote_plus (s : string) : string :=
  utf8_decode (unquote_bytes (String.length s) s).

End authorisation.

(** ** Fixtures

    A stand-in for the encryption library and a list-backed Spotify
    client, on which the statements below are run. *)

Module fixtures.

Import playlist_info.

(** Keys are non-empty byte strings; a token is the key, then the
    message. It keeps nothing secret: it only obeys [FernetLaws]. *)
Definition stub_fernet : FernetLib := {|
  fernet := string;
  generate_key := fun n => String "k" (String (ascii_of_nat n) EmptyString);
  Fernet := fun c =>
    match c with
    | Raw (String a b) => Some (String a b)
    | _ => None
    end;
  encrypt := fun f _ _ m => f ++ m;
  decrypt := fun f c => strip_prefix f c
|}.

(** A client that serves the tracks [ts] in slices, and the artist
    objects [details] knows. *)
Definition list_source (ts : list playlist_item) (details : string -> artist_object)
    : Spotify := {|
  playlist_tracks := fun _ offset limit =>
    {| page_items := firstn limit (skipn offset ts);
       page_next := if (offset + limit <? length ts)%nat
                    then Some "https://api.spotify.com/v1/playlists/next"
                    else None;
       page_total := length ts |};
  artists := fun ids => map details ids
|}.

(** Tracks A and B by artist X, track C by artist Y. *)
Definition scenario_tracks : list playlist_item :=
  [ {| track_artists := ["X"] |}; {| track_artists := ["X"] |}; {| track_artists := ["Y"] |} ].

Definition scenario_details (artist : string) : artist_object :=
  if String.eqb artist "X" then {| artist_id := "X"; artist_genres := Some ["pop"; "rock"] |}
  else if String.eqb artist "Y" then {| artist_id := "Y"; artist_genres := Some ["jazz"] |}
  else {| artist_id := artist; artist_genres := Some [] |}.

Definition scenario : Spotify := list_source scenario_tracks scenario_details.

(** 250 tracks, each by the artists X and Y: three pages of at most 100. *)
Definition three_pages : list playlist_item :=
  repeat {| track_artists := ["X"; "Y"] |} 250.

(** A token endpoint response. *)
Definition sample_token : dict :=
  [ ("access_token", VStr "BQDj3kTq");
    ("token_type", VStr "Bearer");
    ("expires_in", VInt 3600);
    ("refresh_token", VStr "AQCx81Lm");
    ("scope", VStr "playlist-read-private") ].

(** A record whose lifetime field holds the name of a sensitive field. *)
Definition odd_token : dict :=
  [ ("access_token", VStr "BQDj3kTq"); ("expires_in", VStr "access_token") ].

Definition sample_credentials : dict :=
  [ ("client_id", VStr "5f3a9c"); ("client_secret", VStr "e81dq7") ].

(** A world whose token cache was written 50 time units ago. *)
Definition fresh_cache : world :=
  World {[ "../cache" := Dir 950;
           "../cache/token_cache.json" := File (Json (VDict [("expires_at", VInt 3600)])) 950 ]}
        1000 0.

(** The token cache handler over the stand-in library, with key ["k"]. *)
Definition stub_handler : file_handler.CustomCacheFileHandler stub_fernet :=
  {| file_handler.cache_path := file_handler.CUSTOM_CACHE_PATH;
     file_handler.fernet_key := "k" : fernet stub_fernet |}.

(** A world with the two cache directories and no file. *)
Definition empty_cache : world :=
  World {[ "../cache" := Dir 0; "../cache/keys" := Dir 0 ]} 1000 0.

(** A world without the cache directories. *)
Definition no_cache : world := World ∅ 1000 0.

(** A world with the cache directories and the key ["k"] in the key
    file. *)
Definition keyed_cache : world :=
  World {[ "../cache" := Dir 0; "../cache/keys" := Dir 0;
           "../cache/keys/spotify.key" := File (Raw "k") 0 ]} 1000 0.

(** [keyed_cache] with [c] as the credentials file. *)
(** A byte that no UTF-8 text holds. *)
Definition not_text : string := String (Ascii.ascii_of_nat 255) "".

Definition with_credentials_file (c : content) : world :=
  World {[ "../cache" := Dir 0; "../cache/keys" := Dir 0;
           "../cache/keys/spotify.key" := File (Raw "k") 0;
           "../cache/spotify_credentials.json" := File c 5 ]} 1000 0.

(** [empty_cache] with [c] as the token cache file, written at time 5. *)
Definition with_token_file (c : content) : world :=
  World {[ "../cache" := Dir 0; "../cache/keys" := Dir 0;
           "../cache/token_cache.json" := File c 5 ]} 1000 0.

(** The credential store over the stand-in library, with key ["k"],
    remembering [c]. *)
Definition stub_store (c : option dict) : file_handler.CredentialsFileHandler stub_fernet :=
  {| file_handler.credentials_fernet_key := "k" : fernet stub_fernet;
     file_handler.credentials := c |}.

End fixtures.

(** * Properties *)

Import util file_handler playlist_info fixtures.

(** ** Running a computation *)

Lemma bind_Ok {A B} (m : M A) (k : A -> M B) w a w' :
  m w = (Ok a, w') -> bind m k w = k a w'.
Proof. intros H. unfold bind. now rewrite H. Qed.

Lemma bind_Raise {A B} (m : M A) (k : A -> M B) w e w' :
  m w = (Raise e, w') -> bind m k w = (Raise e, w').
Proof. intros H. unfold bind. now rewrite H. Qed.

Lemma bind_inv_Ok {A B} (m : M A) (k : A -> M B) w b w' :
  bind m k w = (Ok b, w') -> exists a w1, m w = (Ok a, w1) /\ k a w1 = (Ok b, w').
Proof.
  unfold bind. destruct (m w) as [[a|e] w1]; intros H.
  - eauto.
  - discriminate.
Qed.

Lemma os_path_exists_Some p w n :
  fs w !! p = Some n -> os_path_exists p w = (Ok true, w).
Proof.
  intros H. unfold os_path_exists. rewrite bool_decide_eq_true_2; eauto.
Qed.

Lemma os_path_exists_None p w :
  fs w !! p = None -> os_path_exists p w = (Ok false, w).
Proof.
  intros H. unfold os_path_exists. rewrite bool_decide_eq_false_2; [reflexivity|].
  rewrite H. intros [x Hx]. discriminate.
Qed.

Lemma stub_fernet_laws : FernetLaws stub_fernet.
Proof.
  split.
  - intros n. simpl. eauto.
  - intros f t iv m. simpl. induction f as [|a f IH]; simpl.
    + reflexivity.
    + now rewrite Ascii.eqb_refl.
Qed.

(** ** The key provider *)

Section key_provider.
Context (L : FernetLib).

Lemma get_fernet_key_existing w c t :
  fs w !! key_file = Some (File c t) ->
  get_fernet_key L w = Fernet_new L c w.
Proof.
  intros H. unfold get_fernet_key.
  rewrite (bind_Ok _ _ _ _ _ (os_path_exists_Some _ _ _ H)).
  unfold bind, read_file. rewrite H. unfold Fernet_new.
  destruct (Fernet L c); reflexivity.
Qed.

Lemma Fernet_new_inv c w f w' :
  Fernet_new L c w = (Ok f, w') -> Fernet L c = Some f /\ w' = w.
Proof.
  unfold Fernet_new. destruct (Fernet L c); unfold ret, raise; intros H.
  - now inversion H.
  - discriminate.
Qed.

Lemma Fernet_new_Some c w f :
  Fernet L c = Some f -> Fernet_new L c w = (Ok f, w).
Proof. intros H. unfold Fernet_new. now rewrite H. Qed.

Lemma get_fernet_key_created w t :
  fs w !! key_file = None ->
  fs w !! dirname key_file = Some (Dir t) ->
  get_fernet_key L w
    = Fernet_new L (Raw (generate_key L (urandom_calls w))) (key_created L w).
Proof.
  intros Hk Hd. unfold get_fernet_key.
  rewrite (bind_Ok _ _ _ _ _ (os_path_exists_None _ _ Hk)).
  unfold util.Fernet_generate_key, bind, os_urandom, ret, write_file. simpl fs.
  rewrite Hk, Hd. reflexivity.
Qed.

Lemma nearest_entry_fs ds w w' :
  fs w' = fs w -> nearest_entry ds w' = nearest_entry ds w.
Proof.
  intros H. induction ds as [|d ds IH]; simpl; [reflexivity|].
  rewrite H, IH. reflexivity.
Qed.

Lemma missing_error_fs p w w' :
  fs w' = fs w -> missing_error p w' = missing_error p w.
Proof.
  intros H. unfold missing_error. now rewrite (nearest_entry_fs _ _ _ H).
Qed.

Lemma ancestors_key_file : ancestors key_file = ["../cache/keys"; "../cache"].
Proof. reflexivity. Qed.

Lemma get_fernet_key_no_directory w :
  fs w !! key_file = None ->
  (forall t, fs w !! dirname key_file <> Some (Dir t)) ->
  get_fernet_key L w
    = (Raise (missing_error key_file w), World (fs w) (clock w) (S (urandom_calls w))).
Proof.
  intros Hk Hd. unfold get_fernet_key.
  rewrite (bind_Ok _ _ _ _ _ (os_path_exists_None _ _ Hk)).
  unfold util.Fernet_generate_key, bind, os_urandom, ret, write_file. simpl fs.
  rewrite Hk.
  rewrite (missing_error_fs key_file w (World (fs w) (clock w) (S (urandom_calls w))) eq_refl).
  destruct (fs w !! dirname key_file) as [[c t|t]|] eqn:E; try reflexivity.
  now destruct (Hd t).
Qed.

Lemma missing_error_key_file_absent w :
  fs w !! dirname key_file = None ->
  (forall c t, fs w !! "../cache" <> Some (File c t)) ->
  missing_error key_file w = FileNotFoundError key_file.
Proof.
  intros Hd Hc. unfold missing_error. rewrite ancestors_key_file.
  cbn [nearest_entry]. change (fs w !! "../cache/keys") with (fs w !! dirname key_file).
  rewrite Hd. destruct (fs w !! "../cache") as [[c t|t]|] eqn:E; try reflexivity.
  now destruct (Hc c t).
Qed.

Lemma missing_error_key_file_blocked w :
  (exists c t, fs w !! dirname key_file = Some (File c t))
  \/ (fs w !! dirname key_file = None /\ exists c t, fs w !! "../cache" = Some (File c t)) ->
  missing_error key_file w = NotADirectoryError key_file.
Proof.
  intros H. unfold missing_error. rewrite ancestors_key_file.
  cbn [nearest_entry]. change (fs w !! "../cache/keys") with (fs w !! dirname key_file).
  destruct H as [(c & t & ->)|[-> (c & t & ->)]]; reflexivity.
Qed.

Lemma get_fernet_key_holds w f w' :
  get_fernet_key L w = (Ok f, w') -> key_file_holds L w' f.
Proof.
  intros H. destruct (fs w !! key_file) as [[c t|t]|] eqn:Hk.
  - rewrite (get_fernet_key_existing _ _ _ Hk) in H.
    apply Fernet_new_inv in H as [Hf ->]. exists c, t. auto.
  - unfold get_fernet_key in H.
    rewrite (bind_Ok _ _ _ _ _ (os_path_exists_Some _ _ _ Hk)) in H.
    unfold bind, read_file in H. rewrite Hk in H. discriminate.
  - destruct (fs w !! dirname key_file) as [[c t|t]|] eqn:Hd.
    + rewrite (get_fernet_key_no_directory _ Hk) in H; [discriminate|].
      intros t'. rewrite Hd. discriminate.
    + rewrite (get_fernet_key_created _ _ Hk Hd) in H.
      apply Fernet_new_inv in H as [Hf ->].
      exists (Raw (generate_key L (urandom_calls w))), (clock w). split; [|exact Hf].
      unfold key_created. simpl. apply lookup_insert_eq.
    + rewrite (get_fernet_key_no_directory _ Hk) in H; [discriminate|].
      intros t'. rewrite Hd. discriminate.
Qed.

Lemma get_fernet_key_of_holds w f :
  key_file_holds L w f -> get_fernet_key L w = (Ok f, w).
Proof.
  intros (c & t & Hk & Hf).
  rewrite (get_fernet_key_existing _ _ _ Hk). now apply Fernet_new_Some.
Qed.

End key_provider.

(** C9 (amended). [get_fernet_key] returns the key wrapped from the key
    file's bytes, and leaves the world alone, whenever the key file exists
    (with [ValueError] when the bytes are not a key). When the key file
    does not exist and its directory does, it generates a key from a fresh
    random draw, writes it to the key file and returns it wrapped. When
    the key file does not exist and its directory is not a directory, it
    draws the key, raises and creates nothing, since no call creates a
    directory: [FileNotFoundError] when the directory has no entry and
    [../cache] is not a regular file, [NotADirectoryError] when a regular
    file stands at the directory's path or, the directory having no
    entry, at [../cache]. After a call that returned a key, every call
    made while the key file holds the same entry returns that key and
    changes nothing, and the key decrypts every token made with it. *)
Theorem get_fernet_key_spec (L : FernetLib) (HL : FernetLaws L) (w : world) :
  (forall c t, fs w !! key_file = Some (File c t) ->
     get_fernet_key L w
       = (match Fernet L c with
          | Some f => Ok f
          | None => Raise (ValueError "Fernet key must be 32 url-safe base64-encoded bytes.")
          end, w))
  /\ (forall t, fs w !! key_file = None -> fs w !! dirname key_file = Some (Dir t) ->
        exists f, Fernet L (Raw (generate_key L (urandom_calls w))) = Some f
                  /\ get_fernet_key L w = (Ok f, key_created L w)
                  /\ fs (key_created L w) !! key_file
                       = Some (File (Raw (generate_key L (urandom_calls w))) (clock w)))
  /\ (fs w !! key_file = None -> fs w !! dirname key_file = None ->
        (forall c t, fs w !! "../cache" <> Some (File c t)) ->
        get_fernet_key L w
          = (Raise (FileNotFoundError key_file),
             World (fs w) (clock w) (S (urandom_calls w))))
  /\ (fs w !! key_file = None ->
        (exists c t, fs w !! dirname key_file = Some (File c t))
        \/ (fs w !! dirname key_file = None
            /\ exists c t, fs w !! "../cache" = Some (File c t)) ->
        get_fernet_key L w
          = (Raise (NotADirectoryError key_file),
             World (fs w) (clock w) (S (urandom_calls w))))
  /\ (forall f w', get_fernet_key L w = (Ok f, w') ->
        (forall w'', fs w'' !! key_file = fs w' !! key_file ->
                     get_fernet_key L w'' = (Ok f, w''))
        /\ forall t iv m, decrypt L f (encrypt L f t iv m) = Some m).
Proof.
  repeat split.
  - intros c t Hk. rewrite (get_fernet_key_existing _ _ _ _ Hk).
    unfold Fernet_new. destruct (Fernet L c); reflexivity.
  - intros t Hk Hd. destruct (generate_key_accepted L HL (urandom_calls w)) as [f Hf].
    exists f. split; [exact Hf|]. split.
    + rewrite (get_fernet_key_created _ _ _ Hk Hd). now apply Fernet_new_Some.
    + unfold key_created. simpl. apply lookup_insert_eq.
  - intros Hk Hd Hc. rewrite (get_fernet_key_no_directory _ _ Hk).
    + now rewrite (missing_error_key_file_absent _ Hd Hc).
    + intros t. rewrite Hd. discriminate.
  - intros Hk Hb. rewrite (get_fernet_key_no_directory _ _ Hk).
    + now rewrite (missing_error_key_file_blocked _ Hb).
    + intros t. destruct Hb as [(c & t' & ->)|[-> _]]; discriminate.
  - intros w'' Hsame. apply get_fernet_key_of_holds.
    destruct (get_fernet_key_holds _ _ _ _ H) as (c & t & Hk & Hf).
    exists c, t. split; [congruence | exact Hf].
  - apply (decrypt_encrypt L HL).
Qed.

Lemma get_fernet_key_spec_witness :
  exists f, get_fernet_key stub_fernet empty_cache = (Ok f, key_created stub_fernet empty_cache).
Proof.
  destruct (get_fernet_key_spec stub_fernet stub_fernet_laws empty_cache)
    as (_ & Hnew & _).
  destruct (Hnew 0) as (f & _ & Hf & _); [reflexivity | reflexivity |].
  exists f. exact Hf.
Defined.

Lemma get_fernet_key_creates_no_directory :
  fs no_cache !! key_file = None
  /\ get_fernet_key stub_fernet no_cache
     = (Raise (FileNotFoundError "../cache/keys/spotify.key"), World ∅ 1000 1).
Proof. split; reflexivity. Qed.

(** ** Dicts *)

Lemma dict_get_set_eq k v d : dict_get k (dict_set k v d) = Some v.
Proof.
  induction d as [|[k' v'] d IH]; simpl.
  - now rewrite String.eqb_refl.
  - destruct (String.eqb k k') eqn:E; simpl; rewrite E; auto.
Qed.

Lemma dict_get_set_ne k k' v d : k <> k' -> dict_get k (dict_set k' v d) = dict_get k d.
Proof.
  intros Hne. induction d as [|[k'' v''] d IH]; simpl.
  - destruct (String.eqb_spec k k'); congruence.
  - destruct (String.eqb_spec k' k''); simpl.
    + subst. destruct (String.eqb_spec k k''); congruence.
    + destruct (String.eqb_spec k k''); auto.
Qed.

Lemma dict_get_remove_eq k d : dict_get k (dict_remove k d) = None.
Proof.
  induction d as [|[k' v'] d IH]; simpl; auto.
  destruct (String.eqb k k') eqn:E; simpl; auto. now rewrite E.
Qed.

Lemma dict_get_remove_ne k k' d : k <> k' -> dict_get k (dict_remove k' d) = dict_get k d.
Proof.
  intros Hne. induction d as [|[k'' v''] d IH]; simpl; auto.
  destruct (String.eqb_spec k' k''); simpl.
  - subst. destruct (String.eqb_spec k k''); congruence.
  - destruct (String.eqb_spec k k''); auto.
Qed.

Lemma dict_get_None_keys k (d d' : dict) :
  map fst d' = map fst d -> dict_get k d = None -> dict_get k d' = None.
Proof.
  revert d'. induction d as [|[k1 v1] d IH]; intros [|[k2 v2] d'] Hk; simpl in *;
    try discriminate; auto.
  inversion Hk; subst. destruct (String.eqb k k1); [discriminate | auto].
Qed.

(** ** Comprehensions *)

Lemma dict_comprehension_id (f : string -> value -> M value) (d : dict) w :
  (forall k x, In (k, x) d -> forall w, f k x w = (Ok x, w)) ->
  dict_comprehension f d w = (Ok d, w).
Proof.
  induction d as [|[k x] d IH]; intros Hf; simpl.
  - reflexivity.
  - unfold bind. rewrite (Hf k x (or_introl eq_refl)).
    rewrite IH; [reflexivity|]. intros k' x' Hin. apply Hf. now right.
Qed.

Lemma dict_comprehension_total (f : string -> value -> M value) (d : dict) w :
  (forall k x w, exists x' w', f k x w = (Ok x', w') /\ same_disk w w') ->
  exists d' w', dict_comprehension f d w = (Ok d', w')
                /\ same_disk w w' /\ map fst d' = map fst d.
Proof.
  intros Hf. revert w. induction d as [|[k x] d IH]; intros w; simpl.
  - exists [], w. repeat split.
  - destruct (Hf k x w) as (x' & w1 & E1 & Hfs1 & Hc1).
    destruct (IH w1) as (d' & w2 & E2 & [Hfs2 Hc2] & Hkeys).
    exists ((k, x') :: d'), w2. unfold bind. rewrite E1, E2. repeat split.
    + congruence.
    + congruence.
    + simpl. now f_equal.
Qed.

(** ** The token cache *)

Section token_cache.
Context (L : FernetLib).

Lemma write_file_writable p c w :
  writable p w -> write_file p c w = (Ok tt, written p c w).
Proof.
  unfold writable, write_file, written.
  destruct (fs w !! p) as [[c0 t0|t0]|]; [reflexivity | tauto |].
  intros [t Hd]. now rewrite Hd.
Qed.

Lemma written_lookup p c w :
  fs (written p c w) !! p = Some (File c (clock w)).
Proof.
  unfold written. destruct (fs w !! p); simpl; apply lookup_insert_eq.
Qed.

Lemma is_cache_fresh_eq (self : CustomCacheFileHandler L) w :
  is_cache_fresh L self w
    = (Ok (match fs w !! cache_path L self with
           | Some n => clock w - mtime_of n <? REFRESH_INTERVAL
           | None => false
           end), w).
Proof.
  unfold is_cache_fresh. destruct (fs w !! cache_path L self) as [n|] eqn:E.
  - rewrite (bind_Ok _ _ _ _ _ (os_path_exists_Some _ _ _ E)).
    unfold bind, os_path_getmtime, time_time, ret. now rewrite E.
  - now rewrite (bind_Ok _ _ _ _ _ (os_path_exists_None _ _ E)).
Qed.

Lemma is_cache_fresh_stale (self : CustomCacheFileHandler L) w :
  cache_stale L self w -> is_cache_fresh L self w = (Ok false, w).
Proof.
  unfold cache_stale. rewrite is_cache_fresh_eq.
  destruct (fs w !! cache_path L self) as [n|]; [|reflexivity].
  intros H. do 2 f_equal. apply Z.ltb_ge. exact H.
Qed.

Lemma encrypt_str_total f x w :
  value_in x ATTRS_TO_ENCRYPT = true ->
  exists x' w', util.encrypt_str L f x w = (Ok x', w') /\ same_disk w w'.
Proof.
  destruct x; simpl; try discriminate. intros _.
  eexists _, _. unfold util.encrypt_str, bind, lift, time_time, os_urandom, ret. simpl.
  split; [reflexivity | split; reflexivity].
Qed.

Lemma encrypt_entries_total (self : CustomCacheFileHandler L) (d : dict) w :
  exists d' w',
    dict_comprehension
      (fun _ v => if value_in v ATTRS_TO_ENCRYPT
                  then util.encrypt_str L (fernet_key L self) v else ret v) d w
    = (Ok d', w')
    /\ same_disk w w' /\ map fst d' = map fst d.
Proof.
  apply dict_comprehension_total. intros _ x w0.
  destruct (value_in x ATTRS_TO_ENCRYPT) eqn:E.
  - now apply encrypt_str_total.
  - exists x, w0. repeat split.
Qed.

Lemma save_token_to_cache_within_interval
    (self : CustomCacheFileHandler L) (token_info : dict) w n :
  fs w !! cache_path L self = Some n ->
  clock w - mtime_of n < REFRESH_INTERVAL ->
  save_token_to_cache L self token_info w = (Ok tt, w).
Proof.
  intros Hn Hlt. unfold save_token_to_cache.
  erewrite bind_Ok; [|apply is_cache_fresh_eq].
  rewrite Hn. replace (clock w - mtime_of n <? REFRESH_INTERVAL) with true; [reflexivity|].
  symmetry. apply Z.ltb_lt. exact Hlt.
Qed.

Lemma save_token_to_cache_stale (self : CustomCacheFileHandler L) (token_info : dict) w :
  cache_stale L self w ->
  save_token_to_cache L self token_info w
  = (let! encrypted_token_info :=
       dict_comprehension
         (fun _ v => if value_in v ATTRS_TO_ENCRYPT
                     then util.encrypt_str L (fernet_key L self) v else ret v)
         token_info in
     let! popped := lift (dict_pop "expires_in" encrypted_token_info) in
     write_file (cache_path L self)
       (Json (VDict (dict_set "expires_at" (fst popped) (snd popped))))) w.
Proof.
  intros H. unfold save_token_to_cache.
  now rewrite (bind_Ok _ _ _ _ _ (is_cache_fresh_stale _ _ H)).
Qed.

(** Where no value is the name of a sensitive field, a save on a stale
    cache writes the record as it is, but for the renamed field. *)
Lemma save_token_to_cache_plain (self : CustomCacheFileHandler L) (token_info : dict) w v :
  cache_stale L self w ->
  writable (cache_path L self) w ->
  dict_get "expires_in" token_info = Some v ->
  (forall k x, In (k, x) token_info -> value_in x ATTRS_TO_ENCRYPT = false) ->
  save_token_to_cache L self token_info w
  = (Ok tt,
     written (cache_path L self)
       (Json (VDict (dict_set "expires_at" v (dict_remove "expires_in" token_info)))) w).
Proof.
  intros Hs Hw Hv Hplain. rewrite (save_token_to_cache_stale _ _ _ Hs).
  erewrite bind_Ok.
  2:{ apply dict_comprehension_id. intros k x Hin w0. now rewrite (Hplain k x Hin). }
  unfold bind, lift, dict_pop. rewrite Hv. simpl.
  now apply write_file_writable.
Qed.

Lemma get_cached_token_plain (self : CustomCacheFileHandler L) (d : dict) w t :
  fs w !! cache_path L self = Some (File (Json (VDict d)) t) ->
  (forall k x, In (k, x) d -> value_in x ATTRS_TO_ENCRYPT = false) ->
  get_cached_token L self w = (Ok (Some d), w).
Proof.
  intros Hf Hplain. unfold get_cached_token.
  rewrite (bind_Ok _ _ _ _ _ (os_path_exists_Some _ _ _ Hf)).
  unfold bind at 1. unfold read_file. rewrite Hf.
  unfold bind at 1. unfold lift at 1. simpl json_load. cbv iota.
  unfold bind at 1. unfold lift at 1. simpl items. cbv iota.
  erewrite bind_Ok.
  2:{ apply dict_comprehension_id. intros k x Hin w0. now rewrite (Hplain k x Hin). }
  reflexivity.
Qed.

End token_cache.

Lemma dict_get_In k v (d : dict) : dict_get k d = Some v -> In (k, v) d.
Proof.
  induction d as [|[k' v'] d IH]; simpl; [discriminate|].
  destruct (String.eqb_spec k k'); intros H.
  - inversion H; subst. now left.
  - right. auto.
Qed.

Lemma In_dict_remove k x k' (d : dict) : In (k, x) (dict_remove k' d) -> In (k, x) d.
Proof.
  induction d as [|[k'' v''] d IH]; simpl; auto.
  destruct (String.eqb k' k''); simpl; tauto.
Qed.

Lemma In_dict_set k x k' v (d : dict) :
  In (k, x) (dict_set k' v d) -> x = v \/ In (k, x) d.
Proof.
  induction d as [|[k'' v''] d IH]; simpl.
  - intros [H|[]]. inversion H. now left.
  - destruct (String.eqb k' k''); simpl.
    + intros [H|H]; [inversion H; now left | right; now right].
    + intros [H|H]; [right; now left | destruct (IH H); [now left | right; now right]].
Qed.

Section token_cache_claims.
Context (L : FernetLib).

(** C2. When the cache file exists and the time since its last
    modification is below the refresh interval of 100, a save writes
    nothing: it returns with the world, and so the file's content and
    modification time, as they were. [is_cache_fresh] never raises and
    never changes the world; its answer is a function of the cache
    file's existence, its modification time and the clock, and is false
    when the file does not exist. *)
Theorem save_token_to_cache_fresh_is_noop
    (self : CustomCacheFileHandler L) (token_info : dict) (w : world) :
  (forall n, fs w !! cache_path L self = Some n ->
             clock w - mtime_of n < 100 ->
             save_token_to_cache L self token_info w = (Ok tt, w))
  /\ is_cache_fresh L self w
      = (Ok (match fs w !! cache_path L self with
             | Some n => clock w - mtime_of n <? 100
             | None => false
             end), w)
  /\ (fs w !! cache_path L self = None -> is_cache_fresh L self w = (Ok false, w)).
Proof.
  repeat split.
  - intros n Hn Hlt. now apply (save_token_to_cache_within_interval L self token_info w n).
  - apply is_cache_fresh_eq.
  - intros Hn. rewrite is_cache_fresh_eq. now rewrite Hn.
Qed.

(** C10. When the cache is not fresh and the token record has no
    [expires_in] field, a save raises [KeyError] for that key and the
    file system is as it was: the error comes before the file is
    opened. *)
Theorem save_token_to_cache_missing_expires_in
    (self : CustomCacheFileHandler L) (token_info : dict) (w : world) :
  is_cache_fresh L self w = (Ok false, w) ->
  dict_get "expires_in" token_info = None ->
  exists w', save_token_to_cache L self token_info w = (Raise (KeyError "expires_in"), w')
             /\ fs w' = fs w.
Proof.
  intros Hfresh Hnone. unfold save_token_to_cache.
  rewrite (bind_Ok _ _ _ _ _ Hfresh). cbn [negb].
  destruct (encrypt_entries_total L self token_info w) as (d' & w' & E & [Hfs _] & Hkeys).
  exists w'. split; [|exact Hfs].
  rewrite (bind_Ok _ _ _ _ _ E).
  unfold bind, lift, dict_pop. now rewrite (dict_get_None_keys _ _ _ Hkeys Hnone).
Qed.

(** C1, at a token endpoint response. The save writes the access token
    and the refresh token as they came, in clear text: the comprehension
    looks for the names of the sensitive fields among the values. *)
Theorem save_token_to_cache_stores_secrets_in_clear (f : fernet L) :
  let self := {| cache_path := CUSTOM_CACHE_PATH; fernet_key := f |} in
  let on_disk :=
    [ ("access_token", VStr "BQDj3kTq");
      ("token_type", VStr "Bearer");
      ("refresh_token", VStr "AQCx81Lm");
      ("scope", VStr "playlist-read-private");
      ("expires_at", VInt 3600) ] in
  save_token_to_cache L self sample_token empty_cache
    = (Ok tt, written CUSTOM_CACHE_PATH (Json (VDict on_disk)) empty_cache)
  /\ fs (written CUSTOM_CACHE_PATH (Json (VDict on_disk)) empty_cache) !! CUSTOM_CACHE_PATH
      = Some (File (Json (VDict on_disk)) 1000).
Proof.
  intros self on_disk. split.
  - refine (save_token_to_cache_plain L self sample_token empty_cache (VInt 3600) _ _ _ _).
    + exact I.
    + exists 0. reflexivity.
    + reflexivity.
    + intros k x Hin. simpl in Hin.
      repeat (destruct Hin as [Hin|Hin]; [inversion Hin; reflexivity|]). destruct Hin.
  - apply written_lookup.
Qed.

(** A record whose [expires_in] value is the text ["access_token"],
    which no token endpoint sends, has that value encrypted as well: the
    comprehension encrypts every value that is the name of a sensitive
    field, whatever its key. *)
Lemma save_token_to_cache_converts_odd_lifetime (f : fernet L) :
  let self := {| cache_path := CUSTOM_CACHE_PATH; fernet_key := f |} in
  save_token_to_cache L self odd_token empty_cache
    = (Ok tt,
       written CUSTOM_CACHE_PATH
         (Json (VDict [ ("access_token", VStr "BQDj3kTq");
                        ("expires_at", VStr (encrypt L f 1000 0 "access_token")) ]))
         (World (fs empty_cache) 1000 1)).
Proof. reflexivity. Qed.

End token_cache_claims.

Section token_cache_scenarios.
Context (L : FernetLib).

Lemma write_file_Ok_lookup p c w w1 :
  write_file p c w = (Ok tt, w1) ->
  fs w1 !! p = Some (File c (clock w)) /\ urandom_calls w1 = urandom_calls w.
Proof.
  unfold write_file. destruct (fs w !! p) as [[c0 t0|t0]|].
  - intros H. inversion H. simpl. split; [apply lookup_insert_eq | reflexivity].
  - discriminate.
  - destruct (fs w !! dirname p) as [[c0 t0|t0]|]; try discriminate.
    intros H. inversion H. simpl. split; [apply lookup_insert_eq | reflexivity].
Qed.

(** The freshness gate over two calls: after a save that wrote at time
    [clock w], a save made less than 100 later, with any record, leaves
    the file system as the first one left it. *)
Lemma save_token_to_cache_twice (self : CustomCacheFileHandler L)
    (first second : dict) (w w1 : world) (later : Z) :
  cache_stale L self w ->
  save_token_to_cache L self first w = (Ok tt, w1) ->
  later - clock w < 100 ->
  save_token_to_cache L self second (World (fs w1) later (urandom_calls w1))
    = (Ok tt, World (fs w1) later (urandom_calls w1))
  /\ exists c, fs w1 !! cache_path L self = Some (File c (clock w)).
Proof.
  intros Hstale Hsave Hlater.
  rewrite (save_token_to_cache_stale L _ _ _ Hstale) in Hsave.
  apply bind_inv_Ok in Hsave as (d' & w' & Hcomp & Hsave).
  apply bind_inv_Ok in Hsave as (popped & w'' & Hpop & Hwrite).
  destruct (encrypt_entries_total L self first w) as (d0 & w0 & E & [Hfs Hc] & _).
  rewrite E in Hcomp. inversion Hcomp; subst d0 w0.
  unfold lift in Hpop. inversion Hpop; subst w''.
  apply write_file_Ok_lookup in Hwrite as [Hlook _]. rewrite Hc in Hlook.
  split; [|eauto].
  apply (save_token_to_cache_within_interval L self second
           (World (fs w1) later (urandom_calls w1)) _ Hlook).
  exact Hlater.
Qed.

End token_cache_scenarios.

(** On the read side the same test leaves a stored ciphertext as it is:
    the value of [access_token] is not one of the two names. *)
Lemma get_cached_token_leaves_ciphertext :
  let on_disk := [ ("access_token", VStr (encrypt stub_fernet "k" 1000 0%nat "BQDj3kTq"));
                   ("expires_at", VInt 3600) ] in
  get_cached_token stub_fernet stub_handler
    (written CUSTOM_CACHE_PATH (Json (VDict on_disk)) empty_cache)
  = (Ok (Some on_disk), written CUSTOM_CACHE_PATH (Json (VDict on_disk)) empty_cache).
Proof. reflexivity. Qed.

Lemma save_token_to_cache_fresh_is_noop_witness :
  save_token_to_cache stub_fernet stub_handler sample_token fresh_cache = (Ok tt, fresh_cache).
Proof.
  apply (proj1 (save_token_to_cache_fresh_is_noop stub_fernet stub_handler sample_token fresh_cache)
           (File (Json (VDict [("expires_at", VInt 3600)])) 950)).
  - reflexivity.
  - reflexivity.
Defined.

Lemma save_token_to_cache_missing_expires_in_witness :
  exists w', save_token_to_cache stub_fernet stub_handler [("access_token", VStr "BQDj3kTq")] empty_cache
             = (Raise (KeyError "expires_in"), w')
             /\ fs w' = fs empty_cache.
Proof.
  apply (save_token_to_cache_missing_expires_in stub_fernet stub_handler
           [("access_token", VStr "BQDj3kTq")] empty_cache).
  - reflexivity.
  - reflexivity.
Defined.

Section token_round_trip.
Context (L : FernetLib).

Lemma is_cache_fresh_false_stale (self : CustomCacheFileHandler L) w :
  is_cache_fresh L self w = (Ok false, w) -> cache_stale L self w.
Proof.
  rewrite is_cache_fresh_eq. unfold cache_stale.
  destruct (fs w !! cache_path L self) as [n|]; [|trivial].
  intros H. apply Z.ltb_ge. congruence.
Qed.

(** C4 (amended). For a token record that has an [expires_in] field and
    none of whose values is the text [access_token] or [refresh_token],
    a save on a stale or missing cache file that can be written,
    followed by a read, returns a record whose [access_token] and
    [refresh_token] values are the original ones, whose [expires_at]
    field holds the incoming [expires_in] value, which has no
    [expires_in] field, and whose every other field is unchanged in name
    and value. *)
Theorem save_then_get_cached_token
    (self : CustomCacheFileHandler L) (token_info : dict) (w : world) (v : value) :
  is_cache_fresh L self w = (Ok false, w) ->
  writable (cache_path L self) w ->
  dict_get "expires_in" token_info = Some v ->
  (forall k x, In (k, x) token_info -> value_in x ATTRS_TO_ENCRYPT = false) ->
  exists w1 d,
    save_token_to_cache L self token_info w = (Ok tt, w1)
    /\ get_cached_token L self w1 = (Ok (Some d), w1)
    /\ dict_get "access_token" d = dict_get "access_token" token_info
    /\ dict_get "refresh_token" d = dict_get "refresh_token" token_info
    /\ dict_get "expires_at" d = Some v
    /\ dict_get "expires_in" d = None
    /\ forall k, k <> "expires_in" -> k <> "expires_at" ->
                 dict_get k d = dict_get k token_info.
Proof.
  intros Hfresh Hw Hv Hplain.
  pose (d := dict_set "expires_at" v (dict_remove "expires_in" token_info)).
  assert (Hother : forall k, k <> "expires_in" -> k <> "expires_at" ->
                             dict_get k d = dict_get k token_info).
  { intros k H1 H2. unfold d.
    rewrite dict_get_set_ne by exact H2. now apply dict_get_remove_ne. }
  exists (written (cache_path L self) (Json (VDict d)) w), d. repeat split.
  - apply save_token_to_cache_plain; auto using is_cache_fresh_false_stale.
  - apply (get_cached_token_plain L self d _ (clock w)).
    + apply written_lookup.
    + intros k x Hin. unfold d in Hin. apply In_dict_set in Hin as [->|Hin].
      * apply (Hplain "expires_in"). now apply dict_get_In.
      * apply (Hplain k). now apply In_dict_remove in Hin.
  - apply Hother; discriminate.
  - apply Hother; discriminate.
  - apply dict_get_set_eq.
  - unfold d. rewrite dict_get_set_ne by discriminate. apply dict_get_remove_eq.
  - exact Hother.
Qed.

End token_round_trip.

Lemma save_then_get_cached_token_witness :
  exists w1 d,
    save_token_to_cache stub_fernet stub_handler sample_token empty_cache = (Ok tt, w1)
    /\ get_cached_token stub_fernet stub_handler w1 = (Ok (Some d), w1)
    /\ dict_get "access_token" d = Some (VStr "BQDj3kTq")
    /\ dict_get "expires_at" d = Some (VInt 3600).
Proof.
  destruct (save_then_get_cached_token stub_fernet stub_handler sample_token empty_cache
              (VInt 3600))
    as (w1 & d & Hsave & Hget & Ha & _ & He & _).
  - reflexivity.
  - exists 0. reflexivity.
  - reflexivity.
  - intros k x Hin. simpl in Hin.
    repeat (destruct Hin as [Hin|Hin]; [inversion Hin; reflexivity|]). destruct Hin.
  - exists w1, d. repeat split; assumption.
Defined.

Lemma save_then_get_cached_token_renames_field :
  dict_get "expires_in" sample_token = Some (VInt 3600)
  /\ fst (get_cached_token stub_fernet stub_handler
            (snd (save_token_to_cache stub_fernet stub_handler sample_token empty_cache)))
     = Ok (Some [ ("access_token", VStr "BQDj3kTq");
                  ("token_type", VStr "Bearer");
                  ("refresh_token", VStr "AQCx81Lm");
                  ("scope", VStr "playlist-read-private");
                  ("expires_at", VInt 3600) ])
  /\ dict_get "expires_in"
       [ ("access_token", VStr "BQDj3kTq");
         ("token_type", VStr "Bearer");
         ("refresh_token", VStr "AQCx81Lm");
         ("scope", VStr "playlist-read-private");
         ("expires_at", VInt 3600) ] = None.
Proof. repeat split; vm_compute; reflexivity. Qed.

(** ** The credential store *)

Section credential_store.
Context (L : FernetLib) (HL : FernetLaws L).

Lemma encrypt_str_VStr (f : fernet L) s w :
  util.encrypt_str L f (VStr s) w
    = (Ok (VStr (encrypt L f (clock w) (urandom_calls w) s)),
       World (fs w) (clock w) (S (urandom_calls w))).
Proof. reflexivity. Qed.

Lemma decrypt_str_encrypted (f : fernet L) t iv s w :
  util.decrypt_str L f (VStr (encrypt L f t iv s)) w = (Ok (VStr s), w).
Proof.
  unfold util.decrypt_str, bind, lift. simpl. now rewrite (decrypt_encrypt L HL).
Qed.

Lemma encrypt_credentials_total (f : fernet L) (d : dict) w :
  (forall k x, In (k, x) d -> exists s, x = VStr s) ->
  exists d' w',
    dict_comprehension (fun _ v => util.encrypt_str L f v) d w = (Ok d', w')
    /\ same_disk w w'
    /\ forall w0, dict_comprehension (fun _ v => util.decrypt_str L f v) d' w0 = (Ok d, w0).
Proof.
  revert w. induction d as [|[k x] d IH]; intros w Hstr.
  - exists [], w. repeat split.
  - destruct (Hstr k x (or_introl eq_refl)) as [s ->].
    destruct (IH (World (fs w) (clock w) (S (urandom_calls w)))) as (d' & w' & E & [Hfs Hc] & Hdec).
    { intros k' x' Hin. apply (Hstr k'). now right. }
    exists ((k, VStr (encrypt L f (clock w) (urandom_calls w) s)) :: d'), w'.
    split; [|split; [split|]].
    + cbn [dict_comprehension].
      rewrite (bind_Ok _ _ _ _ _ (encrypt_str_VStr f s w)).
      now rewrite (bind_Ok _ _ _ _ _ E).
    + exact Hfs.
    + exact Hc.
    + intros w0. cbn [dict_comprehension].
      rewrite (bind_Ok _ _ _ _ _ (decrypt_str_encrypted f _ _ s w0)).
      now rewrite (bind_Ok _ _ _ _ _ (Hdec w0)).
Qed.

Lemma key_file_holds_written w f c :
  key_file_holds L w f -> key_file_holds L (written credentials_path c w) f.
Proof.
  intros (c0 & t0 & Hk & Hf). exists c0, t0. split; [|exact Hf].
  unfold written. destruct (fs w !! credentials_path); simpl.
  - rewrite lookup_insert_ne by discriminate. exact Hk.
  - rewrite !lookup_insert_ne by discriminate. exact Hk.
Qed.

Lemma dict_comprehension_reads (f : string -> value -> M value) (d : dict) w :
  (forall k x w, snd (f k x w) = w) -> snd (dict_comprehension f d w) = w.
Proof.
  intros Hf. revert w. induction d as [|[k x] d IH]; intros w; simpl.
  - reflexivity.
  - unfold bind. specialize (Hf k x w). destruct (f k x w) as [[x'|e] w1]; simpl in Hf; subst w1.
    + specialize (IH w). destruct (dict_comprehension f d w) as [[d'|e] w2]; simpl in IH; now subst.
    + reflexivity.
Qed.

Lemma decrypt_str_reads (f : fernet L) x w : snd (util.decrypt_str L f x w) = w.
Proof.
  unfold util.decrypt_str, bind, lift. destruct (encode x) as [b|e]; simpl; [|reflexivity].
  destruct (decrypt L f b); reflexivity.
Qed.

Lemma load_credentials_data_reads w : snd (load_credentials_data w) = w.
Proof.
  unfold load_credentials_data, bind, read_file, lift.
  destruct (fs w !! credentials_path) as [[c t|t]|]; reflexivity.
Qed.

Lemma decrypt_credentials_reads (f : fernet L) v w :
  snd (decrypt_credentials L f v w) = w.
Proof.
  unfold decrypt_credentials, bind, lift. destruct (items v) as [d|e]; simpl; [|reflexivity].
  apply dict_comprehension_reads. intros _ x w0. apply decrypt_str_reads.
Qed.

(** With the key file in place, a retrieve only reads, and the store keeps
    its key. *)
Lemma retrieve_credentials_reads (self self' : CredentialsFileHandler L) f w c w' :
  key_file_holds L w f ->
  retrieve_credentials L self w = (Ok (c, self'), w') ->
  w' = w /\ credentials_fernet_key L self' = credentials_fernet_key L self
  /\ credentials L self' = c.
Proof.
  intros Hkey. unfold retrieve_credentials.
  rewrite (bind_Ok _ _ _ _ _ (get_fernet_key_of_holds L w f Hkey)).
  pose proof (load_credentials_data_reads w) as Hload.
  destruct (load_credentials_data w) as [[v|e] w1]; simpl in Hload; subst w1.
  - pose proof (decrypt_credentials_reads f v w) as Hdec.
    destruct (decrypt_credentials L f v w) as [[d|e] w1]; simpl in Hdec; subst w1.
    + intros H. inversion H. auto.
    + discriminate.
  - destruct e; try discriminate; intros H; inversion H; auto.
Qed.

(** The constructor leaves the key file holding the store's key. *)
Lemma CredentialsFileHandler_init_holds (self : CredentialsFileHandler L) w w' :
  CredentialsFileHandler_init L w = (Ok self, w') ->
  key_file_holds L w' (credentials_fernet_key L self).
Proof.
  unfold CredentialsFileHandler_init. intros H.
  apply bind_inv_Ok in H as (k & w1 & Hk & H).
  apply bind_inv_Ok in H as ([c self1] & w2 & Hr & H).
  unfold ret in H. inversion H; subst. simpl.
  apply get_fernet_key_holds in Hk.
  destruct (retrieve_credentials_reads _ _ _ _ _ _ Hk Hr) as (-> & -> & _).
  exact Hk.
Qed.

(** C5. For a credentials record whose [client_id] and [client_secret]
    are non-empty strings (and whose values are all strings), with the
    key file holding the store's key and the credentials file writable,
    a save followed by a retrieve returns the record that was saved, and
    the store remembers it. *)
Theorem save_then_retrieve_credentials
    (self : CredentialsFileHandler L) (creds : dict) (w : world) (id secret : string) :
  key_file_holds L w (credentials_fernet_key L self) ->
  writable credentials_path w ->
  dict_get "client_id" creds = Some (VStr id) -> id <> "" ->
  dict_get "client_secret" creds = Some (VStr secret) -> secret <> "" ->
  (forall k x, In (k, x) creds -> exists s, x = VStr s) ->
  exists w1 self',
    save_credentials_to_file L self (Some creds) w = (Ok tt, w1)
    /\ retrieve_credentials L self w1 = (Ok (Some creds, self'), w1)
    /\ credentials L self' = Some creds.
Proof.
  intros Hkey Hw Hid _ _ _ Hstr.
  destruct (encrypt_credentials_total (credentials_fernet_key L self) creds w Hstr)
    as (d' & w' & Henc & [Hfs Hc] & Hdec).
  exists (written credentials_path (Json (VDict d')) w'). eexists. split; [|split].
  - unfold save_credentials_to_file.
    destruct creds as [|e creds]; [discriminate|]. cbn [truthy].
    unfold bind at 1. unfold ret at 1. rewrite (bind_Ok _ _ _ _ _ Henc).
    apply write_file_writable. unfold writable in *. now rewrite Hfs.
  - unfold retrieve_credentials.
    erewrite bind_Ok.
    2:{ apply get_fernet_key_of_holds. apply key_file_holds_written.
        destruct Hkey as (c0 & t0 & Hk & Hf). exists c0, t0. rewrite Hfs. eauto. }
    unfold load_credentials_data, bind at 1, read_file. rewrite written_lookup.
    unfold lift, json_load. unfold decrypt_credentials, bind, lift, items.
    rewrite Hdec. reflexivity.
  - reflexivity.
Qed.

End credential_store.

Lemma save_then_retrieve_credentials_witness :
  exists w1 self',
    save_credentials_to_file stub_fernet
      {| credentials_fernet_key := "k" : fernet stub_fernet; credentials := None |}
      (Some sample_credentials)
      (World {[ "../cache" := Dir 0; "../cache/keys" := Dir 0;
                "../cache/keys/spotify.key" := File (Raw "k") 0 ]} 1000 0)
    = (Ok tt, w1)
    /\ retrieve_credentials stub_fernet
         {| credentials_fernet_key := "k" : fernet stub_fernet; credentials := None |} w1
       = (Ok (Some sample_credentials, self'), w1)
    /\ credentials stub_fernet self' = Some sample_credentials.
Proof.
  apply (save_then_retrieve_credentials stub_fernet stub_fernet_laws _ sample_credentials _
           "5f3a9c" "e81dq7").
  - exists (Raw "k"), 0. split; reflexivity.
  - exists 0. reflexivity.
  - reflexivity.
  - discriminate.
  - reflexivity.
  - discriminate.
  - intros k x Hin. simpl in Hin.
    repeat (destruct Hin as [Hin|Hin]; [inversion Hin; eauto|]). destruct Hin.
Defined.

(** ** The genre aggregator *)

Section aggregator.
Local Open Scope nat_scope.

Lemma counter_get_add a k n (c : Counter) :
  counter_get a (counter_add k n c)
    = counter_get a c + (if String.eqb a k then n else 0).
Proof.
  induction c as [|[k' m] c IH]; simpl.
  - destruct (String.eqb a k); lia.
  - destruct (String.eqb_spec k k') as [->|Hk]; simpl.
    + destruct (String.eqb a k'); lia.
    + destruct (String.eqb_spec a k') as [->|Ha].
      * destruct (String.eqb_spec k' k); [congruence | lia].
      * exact IH.
Qed.

Lemma counter_total_add k n (c : Counter) :
  counter_total (counter_add k n c) = counter_total c + n.
Proof.
  unfold counter_total. induction c as [|[k' m] c IH]; simpl.
  - lia.
  - destruct (String.eqb k k'); simpl; lia.
Qed.

Lemma occurrences_cons a k l :
  occurrences a (k :: l) = (if String.eqb a k then 1 else 0) + occurrences a l.
Proof. unfold occurrences. simpl. destruct (String.eqb a k); reflexivity. Qed.

Lemma occurrences_app a l1 l2 :
  occurrences a (l1 ++ l2)%list = occurrences a l1 + occurrences a l2.
Proof. unfold occurrences. now rewrite List.filter_app, List.length_app. Qed.

(** The inner loop: one increment per artist of the track. *)
Lemma count_track a (ids : list string) (c : Counter) :
  counter_get a (fold_left (fun acc artist_id => counter_add artist_id 1 acc) ids c)
    = counter_get a c + occurrences a ids.
Proof.
  revert c. induction ids as [|k ids IH]; intros c; simpl.
  - unfold occurrences. simpl. lia.
  - rewrite IH, counter_get_add, occurrences_cons. lia.
Qed.

Lemma count_track_total (ids : list string) (c : Counter) :
  counter_total (fold_left (fun acc artist_id => counter_add artist_id 1 acc) ids c)
    = counter_total c + length ids.
Proof.
  revert c. induction ids as [|k ids IH]; intros c; simpl.
  - lia.
  - rewrite IH, counter_total_add. lia.
Qed.

Lemma count_page_get a (items : list playlist_item) (c : Counter) :
  counter_get a (count_page items c)
    = counter_get a c + occurrences a (flat_map track_artists items).
Proof.
  unfold count_page. revert c. induction items as [|t items IH]; intros c; simpl.
  - unfold occurrences. simpl. lia.
  - rewrite IH, count_track, occurrences_app. lia.
Qed.

Lemma count_page_total (items : list playlist_item) (c : Counter) :
  counter_total (count_page items c)
    = counter_total c + length (flat_map track_artists items).
Proof.
  unfold count_page. revert c. induction items as [|t items IH]; intros c; simpl.
  - lia.
  - rewrite IH, count_track_total, List.length_app. lia.
Qed.

Lemma count_page_app (l1 l2 : list playlist_item) (c : Counter) :
  count_page (l1 ++ l2) c = count_page l2 (count_page l1 c).
Proof. unfold count_page. apply fold_left_app. Qed.

(** Whatever the client answers, the loop returns the count of the
    tracks its calls listed. *)
Lemma get_artist_counts_loop_listed fuel spotapi playlist_id c offset limit calls c' calls' :
  get_artist_counts_loop fuel spotapi playlist_id c offset limit calls = Some (c', calls') ->
  exists more, calls' = (calls ++ more)%list /\ c' = count_page (listed spotapi more) c.
Proof.
  revert c offset calls. induction fuel as [|fuel IH]; intros c offset calls; simpl.
  - discriminate.
  - destruct (has_next (page_next (playlist_tracks spotapi playlist_id offset limit))); simpl.
    + intros H. apply IH in H as (more & -> & ->).
      exists ((playlist_id, offset, limit) :: more). split.
      * now rewrite <- List.app_assoc.
      * unfold listed at 2. simpl. fold (listed spotapi more).
        now rewrite count_page_app.
    + intros H. inversion H; subst. exists [(playlist_id, offset, limit)]. split; [reflexivity|].
      unfold listed. simpl. now rewrite List.app_nil_r.
Qed.

(** The innermost loop of [get_genre_counts]. *)
Lemma fold_genres_get g n (gs : list string) (genres : Counter) :
  counter_get g (fold_left (fun acc genre => counter_add genre n acc) gs genres)
    = counter_get g genres + occurrences g gs * n.
Proof.
  revert genres. induction gs as [|k gs IH]; intros genres; simpl.
  - unfold occurrences. simpl. lia.
  - rewrite IH, counter_get_add, occurrences_cons. destruct (String.eqb g k); lia.
Qed.

Lemma fold_artist_get artists_count g (genres : Counter) a :
  counter_get g (fold_artist artists_count genres a)
    = counter_get g genres + contribution artists_count g a.
Proof. unfold fold_artist, contribution. apply fold_genres_get. Qed.

Lemma fold_artists_get artists_count g (data : list artist_object) (genres : Counter) :
  counter_get g (fold_left (fold_artist artists_count) data genres)
    = counter_get g genres + list_sum (map (contribution artists_count g) data).
Proof.
  revert genres. induction data as [|a data IH]; intros genres; simpl.
  - lia.
  - rewrite IH, fold_artist_get. lia.
Qed.

Lemma get_genre_counts_get spotapi artists_count g :
  counter_get g (get_genre_counts spotapi artists_count)
    = list_sum (map (contribution artists_count g) (looked_up spotapi artists_count)).
Proof.
  unfold get_genre_counts, looked_up.
  generalize (range 0 (length (map fst artists_count)) 50) as starts.
  change (list_sum (map (contribution artists_count g) ?l))
    with (counter_get g [] + list_sum (map (contribution artists_count g) l)).
  generalize (@nil (string * nat)) as genres.
  intros genres starts. revert genres.
  induction starts as [|i starts IH]; intros genres; simpl.
  - lia.
  - rewrite IH, fold_artists_get, List.map_app, list_sum_app. lia.
Qed.

End aggregator.

Section pagination.
Local Open Scope nat_scope.
Context (spotapi : Spotify) (playlist_id : string) (ts : list playlist_item).
Hypothesis Hpages : pages_over spotapi playlist_id ts.

Lemma ceil_div_100_bounds x :
  x <= ceil_div x 100 * 100 < x + 100.
Proof.
  unfold ceil_div.
  pose proof (Nat.div_mod_eq (x + (100 - 1)) 100) as Hdiv.
  pose proof (Nat.mod_upper_bound (x + (100 - 1)) 100) as Hmod.
  lia.
Qed.

(** The offsets of [n] successive pages from [offset]. *)
Lemma page_calls_step offset n :
  ((playlist_id, offset, 100)
     :: map (fun j => (playlist_id, offset + 100 + j * 100, 100)) (seq 0 n))%list
  = map (fun j => (playlist_id, offset + j * 100, 100)) (seq 0 (S n)).
Proof.
  simpl. f_equal.
  - f_equal. f_equal. lia.
  - rewrite <- List.seq_shift, List.map_map. apply List.map_ext.
    intros j. f_equal. f_equal. lia.
Qed.

Lemma get_artist_counts_loop_pages k :
  forall offset c calls fuel,
    length ts - offset <= S k * 100 ->
    k < fuel ->
    get_artist_counts_loop fuel spotapi playlist_id c offset 100 calls
    = Some (count_page (skipn offset ts) c,
            (calls ++ map (fun j => (playlist_id, offset + j * 100, 100))
                          (seq 0 (Nat.max 1 (ceil_div (length ts - offset) 100))))%list).
Proof.
  induction k as [|k IH]; intros offset c calls fuel Hrem Hfuel;
    (destruct fuel as [|fuel]; [lia|]); cbn [get_artist_counts_loop];
    destruct (Hpages offset 100) as [Hitems Hnext]; rewrite Hitems, Hnext;
    destruct (Nat.ltb_spec (offset + 100) (length ts)) as [Hmore|Hlast]; cbn [negb].
  - lia.
  - rewrite List.firstn_all2 by (rewrite List.length_skipn; lia).
    replace (Nat.max 1 (ceil_div (length ts - offset) 100)) with 1
      by (pose proof (ceil_div_100_bounds (length ts - offset)); lia).
    cbn [seq map]. now rewrite Nat.mul_0_l, Nat.add_0_r.
  - rewrite (IH (offset + 100)) by lia.
    rewrite <- count_page_app.
    replace (skipn (offset + 100) ts) with (skipn 100 (skipn offset ts))
      by (rewrite List.skipn_skipn; f_equal; lia).
    rewrite List.firstn_skipn.
    replace (Nat.max 1 (ceil_div (length ts - offset) 100))
      with (S (Nat.max 1 (ceil_div (length ts - (offset + 100)) 100)))
      by (pose proof (ceil_div_100_bounds (length ts - offset));
          pose proof (ceil_div_100_bounds (length ts - (offset + 100))); lia).
    rewrite <- page_calls_step, <- List.app_assoc. reflexivity.
  - rewrite List.firstn_all2 by (rewrite List.length_skipn; lia).
    replace (Nat.max 1 (ceil_div (length ts - offset) 100)) with 1
      by (pose proof (ceil_div_100_bounds (length ts - offset)); lia).
    cbn [seq map]. now rewrite Nat.mul_0_l, Nat.add_0_r.
Qed.

(** C8 (amended). Over a source that pages correctly through the tracks
    [ts], [get_artist_counts] reaches its [break] within
    [max 1 (ceil (length ts / 100))] iterations. It counts every
    (track, artist) pair of [ts] once, under the artist's identifier,
    and makes exactly [max 1 (ceil (length ts / 100))] listing calls, of
    100 tracks each at the offsets 0, 100, 200, ...: one call for an
    empty playlist, [ceil (length ts / 100)] calls for any other. *)
Theorem get_artist_counts_paginates :
  let pages := Nat.max 1 (ceil_div (length ts) 100) in
  exists c,
    (forall fuel, pages <= fuel ->
       get_artist_counts fuel spotapi playlist_id
       = Some (c, map (fun j => (playlist_id, j * 100, 100)) (seq 0 pages)))
    /\ (forall a, counter_get a c = occurrences a (flat_map track_artists ts))
    /\ counter_total c = length (flat_map track_artists ts)
    /\ (ts <> [] -> pages = ceil_div (length ts) 100).
Proof.
  intros pages. exists (count_page ts []). repeat split.
  - intros fuel Hfuel. unfold get_artist_counts.
    rewrite (get_artist_counts_loop_pages (pages - 1)).
    + simpl. rewrite Nat.sub_0_r. reflexivity.
    + pose proof (ceil_div_100_bounds (length ts)). unfold pages. lia.
    + unfold pages in *. lia.
  - intros a. now rewrite count_page_get.
  - now rewrite count_page_total.
  - intros Hne. pose proof (ceil_div_100_bounds (length ts)). unfold pages.
    destruct ts; [congruence|]. simpl length in *. lia.
Qed.

End pagination.

Lemma list_source_pages_over ts details playlist_id :
  pages_over (list_source ts details) playlist_id ts.
Proof.
  intros offset limit. simpl. split; [reflexivity|].
  destruct (offset + limit <? length ts)%nat; reflexivity.
Qed.

Lemma get_artist_counts_paginates_witness :
  exists c,
    get_artist_counts 3 (list_source three_pages scenario_details) "p"
      = Some (c, [("p", 0, 100); ("p", 100, 100); ("p", 200, 100)]%nat)
    /\ counter_total c = 500%nat.
Proof.
  destruct (get_artist_counts_paginates (list_source three_pages scenario_details) "p"
              three_pages (list_source_pages_over _ _ _))
    as (c & Hrun & _ & Htotal & _).
  exists c. split.
  - apply (Hrun 3%nat). vm_compute. lia.
  - exact Htotal.
Defined.

Lemma get_artist_counts_empty_playlist :
  get_artist_counts 1 (list_source [] scenario_details) "p" = Some ([], [("p", 0, 100)]%nat)
  /\ ceil_div (length (@nil playlist_item)) 100 = 0%nat.
Proof. split; reflexivity. Qed.

(** ** The two patterns *)

Section patterns.
Local Open Scope nat_scope.

Lemma rmatch_lit p st k :
  rmatch (lit p) st k
  = match strip_prefix p (rest st) with
    | Some tail => k (MState (pos st + String.length p) tail (groups st))
    | None => None
    end.
Proof.
  revert st. induction p as [|a p IH]; intros [ps r gs]; simpl.
  - now rewrite Nat.add_0_r.
  - destruct r as [|b r]; [reflexivity|]. destruct (Ascii.eqb a b); [|reflexivity].
    rewrite IH. unfold advance. simpl. destruct (strip_prefix p r); [|reflexivity].
    do 2 f_equal. lia.
Qed.

(** The state after the longest run of [p] from [st]. *)
Lemma rplus_class p k n st :
  (forall st', is_Some (k st'))
  \/ (forall st' c s', rest st' = String c s' -> p c = true -> k st' = None) ->
  String.length (rest st) <= S n ->
  rplus (rmatch (Class p)) n st k
  = match rest st with
    | String c _ =>
        if p c
        then k (MState (pos st + String.length (fst (span p (rest st))))
                       (snd (span p (rest st))) (groups st))
        else None
    | EmptyString => None
    end.
Proof.
  intros Hk. revert st. induction n as [|n IH]; intros [ps r gs] Hlen;
    (destruct r as [|c s']; [reflexivity|]); simpl in Hlen |- *;
    (destruct (p c) eqn:Hp; [|reflexivity]); unfold advance; simpl.
  - destruct s' as [|c' s'']; [|simpl in Hlen; lia]. simpl.
    now replace (ps + 1) with (S ps) by lia.
  - rewrite IH by (simpl; lia). simpl.
    destruct s' as [|c' s'']; simpl.
    + now replace (ps + 1) with (S ps) by lia.
    + destruct (p c') eqn:Hp'; simpl.
      * replace (S (ps + S (String.length (fst (span p s'')))))
          with (ps + S (S (String.length (fst (span p s''))))) by lia.
        destruct (k (MState (ps + S (S (String.length (fst (span p s'')))))
                            (snd (span p s'')) gs)) as [m|] eqn:E; [reflexivity|].
        destruct Hk as [Htotal|Hfail].
        -- destruct (Htotal (MState (ps + S (S (String.length (fst (span p s'')))))
                                    (snd (span p s'')) gs)) as [m Hm]. congruence.
        -- now apply (Hfail _ c' s'').
      * now replace (ps + 1) with (S ps) by lia.
Qed.

Lemma take_span p s : take (String.length (fst (span p s))) s = fst (span p s).
Proof.
  induction s as [|c s IH]; simpl; [reflexivity|].
  destruct (p c); simpl; [now rewrite IH | reflexivity].
Qed.

Lemma at_end_not_alnum c s : alnum c = true -> at_end (String c s) = false.
Proof.
  intros Hc. simpl. destruct s; [|reflexivity].
  destruct (Ascii.eqb_spec c "010") as [->|]; [discriminate | reflexivity].
Qed.

(** [[A-Za-z0-9]+$] from [st]. *)
Lemma rmatch_alnum_to_end st :
  rmatch (Seq (Plus (Class alnum)) Eol) st Some <> None
  <-> alnum_to_end (rest st) = true.
Proof.
  change (rmatch (Seq (Plus (Class alnum)) Eol) st Some)
    with (rplus (rmatch (Class alnum)) (String.length (rest st)) st
            (fun st' => if at_end (rest st') then Some st' else None)).
  rewrite rplus_class; [|right|lia].
  - unfold alnum_to_end. destruct st as [ps [|c s'] gs]; simpl.
    + split; [congruence | discriminate].
    + destruct (alnum c); simpl.
      * destruct (at_end (snd (span alnum s'))); split; congruence.
      * split; [congruence | discriminate].
  - intros st' c s' Hrest Hc. simpl. rewrite Hrest.
    now rewrite (at_end_not_alnum c s' Hc).
Qed.

Lemma re_match_id_pattern s :
  re_match id_pattern s <> None <-> is_bare_id s = true.
Proof.
  unfold re_match, id_pattern, is_bare_id.
  change (rmatch (Seq Bol (Seq (Opt (Group 1 (lit "spotify:playlist:")))
                               (Seq (Plus (Class alnum)) Eol))) (MState 0 s []) Some)
    with (match rmatch (lit "spotify:playlist:") (MState 0 s [])
                  (fun st' => rmatch (Seq (Plus (Class alnum)) Eol)
                                     (close_group 1 (MState 0 s []) st') Some) with
          | Some m => Some m
          | None => rmatch (Seq (Plus (Class alnum)) Eol) (MState 0 s []) Some
          end).
  rewrite rmatch_lit. cbn [rest pos groups].
  pose proof (rmatch_alnum_to_end (MState 0 s [])) as Hs. cbn [rest] in Hs.
  destruct (strip_prefix "spotify:playlist:" s) as [tail|].
  - pose proof (rmatch_alnum_to_end
                  (close_group 1 (MState 0 s [])
                     (MState (0 + String.length "spotify:playlist:") tail []))) as Ht.
    cbn [rest close_group] in Ht.
    destruct (rmatch (Seq (Plus (Class alnum)) Eol)
                (close_group 1 (MState 0 s [])
                   (MState (0 + String.length "spotify:playlist:") tail [])) Some) as [m|].
    + split; [intros _ | congruence]. apply orb_true_iff. left. apply Ht. congruence.
    + rewrite Hs. destruct (alnum_to_end tail).
      * exfalso. now apply (proj2 Ht).
      * reflexivity.
  - exact Hs.
Qed.

Lemma re_match_playlist_url_pattern s :
  option_map (fun m => group 1 (groups m)) (re_match playlist_url_pattern s)
  = captured_id s.
Proof.
  unfold re_match, playlist_url_pattern, captured_id.
  change (rmatch (Seq Bol (Seq (lit "https://open.spotify.com/playlist/")
                               (Group 1 (Plus (Class word))))) (MState 0 s []) Some)
    with (rmatch (lit "https://open.spotify.com/playlist/") (MState 0 s [])
            (fun st' => rplus (rmatch (Class word)) (String.length (rest st')) st'
                          (fun st'' => Some (close_group 1 st' st'')))).
  rewrite rmatch_lit. cbn [rest pos groups].
  destruct (strip_prefix "https://open.spotify.com/playlist/" s) as [tail|]; [|reflexivity].
  rewrite rplus_class; [|left; eauto|cbn [rest]; lia].
  cbn [rest pos groups]. destruct tail as [|c s']; [reflexivity|].
  cbn [span]. destruct (word c); [|reflexivity].
  cbn [option_map close_group groups group fst snd pos rest].
  rewrite Nat.eqb_refl. f_equal.
  match goal with
  | |- take ?n _ = _ =>
      replace n with (S (String.length (fst (span word s'))))
        by (cbn [String.length]; lia)
  end.
  cbn [take]. now rewrite take_span.
Qed.

(** The function in terms of what the patterns describe. *)
Lemma extract_playlist_id_eq s :
  extract_playlist_id s
  = if is_bare_id s then Ok s
    else match captured_id s with
         | Some id => Ok id
         | None => Raise (ValueError ("Invalid playlist URL or playlist ID: " ++ s))
         end.
Proof.
  unfold extract_playlist_id.
  pose proof (re_match_id_pattern s) as Hid.
  rewrite <- re_match_playlist_url_pattern.
  destruct (re_match id_pattern s) as [m|].
  - rewrite (proj1 Hid); [reflexivity | discriminate].
  - destruct (is_bare_id s); [exfalso; now apply (proj2 Hid) |].
    destruct (re_match playlist_url_pattern s); reflexivity.
Qed.

End patterns.

(** C6. [extract_playlist_id] tries the bare-identifier pattern first and
    returns the input as it is when it matches; otherwise, when the
    playlist-URL pattern matches, it returns the text of its group;
    otherwise it raises [ValueError] with a message that ends with the
    input. The bare-identifier pattern matches a run of ASCII letters and
    digits that reaches the end of the input (or a newline ending it),
    with or without the prefix [spotify:playlist:]; the group of the URL
    pattern is the longest run of word characters after the playlist
    address. The URL of playlist 37i9dQZF1DXcBWIGoYBM5M gives that
    identifier, the identifier gives itself, and ["not a url"] raises. *)
Theorem extract_playlist_id_spec (input_str : string) :
  (re_match id_pattern input_str <> None ->
     extract_playlist_id input_str = Ok input_str)
  /\ (re_match id_pattern input_str <> None <-> is_bare_id input_str = true)
  /\ option_map (fun m => group 1 (groups m)) (re_match playlist_url_pattern input_str)
      = captured_id input_str
  /\ (forall m, re_match id_pattern input_str = None ->
                re_match playlist_url_pattern input_str = Some m ->
                extract_playlist_id input_str = Ok (group 1 (groups m)))
  /\ (re_match id_pattern input_str = None ->
      re_match playlist_url_pattern input_str = None ->
      extract_playlist_id input_str
        = Raise (ValueError ("Invalid playlist URL or playlist ID: " ++ input_str)))
  /\ extract_playlist_id "https://open.spotify.com/playlist/37i9dQZF1DXcBWIGoYBM5M"
       = Ok "37i9dQZF1DXcBWIGoYBM5M"
  /\ extract_playlist_id "37i9dQZF1DXcBWIGoYBM5M" = Ok "37i9dQZF1DXcBWIGoYBM5M"
  /\ extract_playlist_id "not a url"
       = Raise (ValueError "Invalid playlist URL or playlist ID: not a url").
Proof.
  split; [|split; [|split; [|split; [|split; [|repeat split]]]]].
  - unfold extract_playlist_id. intros H.
    destruct (re_match id_pattern input_str); [reflexivity | congruence].
  - apply re_match_id_pattern.
  - apply re_match_playlist_url_pattern.
  - unfold extract_playlist_id. intros m Hid Hurl. now rewrite Hid, Hurl.
  - unfold extract_playlist_id. intros Hid Hurl. now rewrite Hid, Hurl.
Qed.

Lemma extract_playlist_id_spec_witness :
  extract_playlist_id "spotify:playlist:37i9dQZF1DXcBWIGoYBM5M"
    = Ok "spotify:playlist:37i9dQZF1DXcBWIGoYBM5M"
  /\ extract_playlist_id "https://open.spotify.com/playlist/37i9dQZF1DXcBWIGoYBM5M?si=0"
     = Ok "37i9dQZF1DXcBWIGoYBM5M"
  /\ extract_playlist_id "playlist 7"
     = Raise (ValueError "Invalid playlist URL or playlist ID: playlist 7").
Proof.
  split; [|split].
  - apply (proj1 (extract_playlist_id_spec "spotify:playlist:37i9dQZF1DXcBWIGoYBM5M")).
    vm_compute. discriminate.
  - pose proof (proj1 (proj2 (proj2 (proj2 (extract_playlist_id_spec
        "https://open.spotify.com/playlist/37i9dQZF1DXcBWIGoYBM5M?si=0"))))) as H.
    specialize (H (MState 56 "?si=0" [(1%nat, "37i9dQZF1DXcBWIGoYBM5M")])).
    apply H; vm_compute; reflexivity.
  - apply (proj1 (proj2 (proj2 (proj2 (proj2 (extract_playlist_id_spec "playlist 7"))))));
      vm_compute; reflexivity.
Defined.

(** * Further properties *)

(** ** The key provider and the random strings *)

Section key_provider_more.
Context (L : FernetLib).

(** X1. When anything exists at the key file's path, [get_fernet_key]
    changes nothing, whatever it returns: an existing key is never
    replaced, even by a call that fails. A directory at that path makes
    the call raise [IsADirectoryError]. *)
Theorem get_fernet_key_keeps_existing (w : world) (n : node) :
  fs w !! key_file = Some n ->
  snd (get_fernet_key L w) = w
  /\ (forall t, n = Dir t ->
                get_fernet_key L w = (Raise (IsADirectoryError key_file), w)).
Proof.
  intros Hn. unfold get_fernet_key.
  rewrite (bind_Ok _ _ _ _ _ (os_path_exists_Some _ _ _ Hn)).
  unfold bind, read_file. rewrite Hn. destruct n as [c t|t].
  - split; [|discriminate]. unfold Fernet_new. destruct (Fernet L c); reflexivity.
  - split; [reflexivity|]. intros t' _. reflexivity.
Qed.

End key_provider_more.

Lemma get_fernet_key_keeps_existing_witness :
  snd (get_fernet_key stub_fernet
         (World {[ "../cache/keys" := Dir 0; "../cache/keys/spotify.key" := File (Raw "") 7 ]}
                1000 0))
  = World {[ "../cache/keys" := Dir 0; "../cache/keys/spotify.key" := File (Raw "") 7 ]}
          1000 0.
Proof.
  apply (get_fernet_key_keeps_existing stub_fernet _ (File (Raw "") 7)).
  reflexivity.
Defined.

Lemma chars_get (i : nat) :
  (i < 62)%nat ->
  exists c, String.get i util.chars = Some c /\ alnum c = true.
Proof.
  intros Hi.
  do 62 (destruct i as [|i]; [eexists; split; reflexivity|]).
  lia.
Qed.

Lemma secrets_choice_alnum randbelow w :
  exists c, util.secrets_choice randbelow w
            = (Ok c, World (fs w) (clock w) (S (urandom_calls w)))
            /\ alnum c = true.
Proof.
  unfold util.secrets_choice, bind, os_urandom.
  destruct (chars_get (Nat.modulo (randbelow (urandom_calls w) (String.length util.chars))
                                  (String.length util.chars))) as (c & Hc & Ha).
  { apply Nat.mod_upper_bound. discriminate. }
  exists c. simpl fs. simpl clock. simpl urandom_calls. rewrite Hc. auto.
Qed.

Lemma join_choices_spec randbelow n w :
  exists s w', util.join_choices randbelow n w = (Ok s, w')
               /\ same_disk w w'
               /\ String.length s = n
               /\ Forall (fun c => alnum c = true) (list_ascii_of_string s).
Proof.
  revert w. induction n as [|n IH]; intros w.
  - exists EmptyString, w. repeat split. constructor.
  - destruct (secrets_choice_alnum randbelow w) as (c & Hc & Ha).
    destruct (IH (World (fs w) (clock w) (S (urandom_calls w))))
      as (s & w' & Hs & [Hfs Hcl] & Hlen & Hall).
    exists (String c s), w'. cbn [util.join_choices].
    rewrite (bind_Ok _ _ _ _ _ Hc), (bind_Ok _ _ _ _ _ Hs).
    repeat split; try assumption.
    + simpl. now f_equal.
    + simpl. now constructor.
Qed.

(** X2. [generate_random_str] always returns: a string of exactly the
    length asked (empty for a negative length) made of ASCII letters and
    digits only, whatever the random source gives; it touches no file. *)
Theorem generate_random_str_spec (randbelow : nat -> nat -> nat) (length : Z) (w : world) :
  exists s w', util.generate_random_str randbelow length w = (Ok s, w')
               /\ same_disk w w'
               /\ Z.of_nat (String.length s) = Z.max 0 length
               /\ Forall (fun c => alnum c = true) (list_ascii_of_string s).
Proof.
  destruct (join_choices_spec randbelow (Z.to_nat length) w)
    as (s & w' & Hs & Hdisk & Hlen & Hall).
  exists s, w'. repeat split; try assumption; try apply Hdisk.
  rewrite Hlen. lia.
Qed.

(** ** The credential store, further *)

Section credential_store_more.
Context (L : FernetLib).





Lemma decrypt_entries_bad (f : fernet L) (d : dict) k x w :
  In (k, x) d ->
  (forall s, x = VStr s -> decrypt L f s = None) ->
  exists e, dict_comprehension (fun _ v => util.decrypt_str L f v) d w = (Raise e, w).
Proof.
  intros Hin Hbad. induction d as [|[k' x'] d IH]; [destruct Hin|].
  cbn [dict_comprehension].
  pose proof (decrypt_str_reads L f x' w) as Hw.
  destruct (util.decrypt_str L f x' w) as [[y|e] w1] eqn:E; simpl in Hw; subst w1.
  - destruct Hin as [Heq|Hin].
    + inversion Heq; subst. exfalso.
      unfold util.decrypt_str, bind, lift in E. destruct x as [| | |s| |]; try discriminate.
      simpl in E. rewrite (Hbad s eq_refl) in E. discriminate.
    + destruct (IH Hin) as [e He]. exists e.
      rewrite (bind_Ok _ _ _ _ _ E). now rewrite (bind_Raise _ _ _ _ _ He).
  - exists e. now rewrite (bind_Raise _ _ _ _ _ E).
Qed.

(** X4. With the key file in place, a credentials file that holds JSON
    other than an object, or an object with a value that is not a string
    the key decrypts (a record made under another key), makes
    [retrieve_credentials] raise [UnboundLocalError] for [credentials]:
    the [finally] block replaces the first error, and nothing is
    changed. *)
Theorem retrieve_credentials_undecryptable
    (self : CredentialsFileHandler L) (w : world) (f : fernet L) (v : value) (t : Z) :
  key_file_holds L w f ->
  fs w !! credentials_path = Some (File (Json v) t) ->
  (forall d, v <> VDict d)
  \/ (exists d k x, v = VDict d /\ In (k, x) d
                    /\ forall s, x = VStr s -> decrypt L f s = None) ->
  retrieve_credentials L self w = (Raise (UnboundLocalError "credentials"), w).
Proof.
  intros Hkey Hfile Hbad. unfold retrieve_credentials.
  rewrite (bind_Ok _ _ _ _ _ (get_fernet_key_of_holds L w f Hkey)).
  unfold load_credentials_data, bind at 1, read_file. rewrite Hfile.
  unfold lift, json_load.
  destruct Hbad as [Hnot|(d & k & x & -> & Hin & Hx)].
  - unfold decrypt_credentials, bind, lift.
    destruct v; try reflexivity. exfalso. now apply (Hnot d).
  - unfold decrypt_credentials, bind at 1, lift, items.
    destruct (decrypt_entries_bad f d k x w Hin Hx) as [e He]. now rewrite He.
Qed.

Lemma encrypt_entries_bad (f : fernet L) (d : dict) k x w :
  In (k, x) d ->
  (forall s, x <> VStr s) ->
  exists w', dict_comprehension (fun _ v => util.encrypt_str L f v) d w
             = (Raise AttributeError, w')
             /\ same_disk w w'.
Proof.
  intros Hin Hbad. revert w. induction d as [|[k' x'] d IH]; intros w; [destruct Hin|].
  cbn [dict_comprehension]. destruct x' as [| | |s| |].
  4:{ destruct Hin as [Heq|Hin]; [inversion Heq; subst; now destruct (Hbad s)|].
      destruct (IH Hin (World (fs w) (clock w) (S (urandom_calls w)))) as (w' & He & Hfs & Hc).
      exists w'. rewrite (bind_Ok _ _ _ _ _ (eq_refl : util.encrypt_str L f (VStr s) w = _)).
      rewrite (bind_Raise _ _ _ _ _ He). repeat split; assumption. }
  all: exists w; split; [reflexivity | split; reflexivity].
Qed.

(** X5. [save_credentials_to_file] fails before it opens the file: with
    no record given and none remembered, and with a record that has a
    value other than a string, it raises [AttributeError] and the file
    system is as it was. *)
Theorem save_credentials_to_file_rejects
    (self : CredentialsFileHandler L) (creds : option dict) (w : world) :
  (truthy creds = false -> credentials L self = None ->
     save_credentials_to_file L self creds w = (Raise AttributeError, w))
  /\ (forall d k x,
        (if truthy creds then creds else credentials L self) = Some d ->
        In (k, x) d -> (forall s, x <> VStr s) ->
        exists w', save_credentials_to_file L self creds w = (Raise AttributeError, w')
                   /\ fs w' = fs w).
Proof.
  split.
  - intros Hfalse Hnone. unfold save_credentials_to_file. rewrite Hfalse, Hnone. reflexivity.
  - intros d k x Hd Hin Hbad. unfold save_credentials_to_file. rewrite Hd.
    destruct (encrypt_entries_bad (credentials_fernet_key L self) d k x w Hin Hbad)
      as (w' & He & Hfs & _).
    exists w'. split; [|exact Hfs].
    unfold bind at 1. unfold ret at 1. now rewrite (bind_Raise _ _ _ _ _ He).
Qed.

(** X6. [has_credentials] is [None] when the store remembers no record or
    an empty one. For a record with both fields it is true exactly when
    both values are true (non-empty strings). A record without
    [client_id] raises [KeyError]; one without [client_secret] raises
    [KeyError] only when its [client_id] is true, since [and] stops at a
    false first operand. *)
Theorem has_credentials_spec (self : CredentialsFileHandler L) :
  (truthy (credentials L self) = false -> has_credentials L self = Ok VNone)
  /\ (forall d i s,
        credentials L self = Some d ->
        dict_get "client_id" d = Some i -> dict_get "client_secret" d = Some s ->
        exists v, has_credentials L self = Ok v
                  /\ value_truthy v = value_truthy i && value_truthy s)
  /\ (forall d,
        credentials L self = Some d -> d <> [] -> dict_get "client_id" d = None ->
        has_credentials L self = Raise (KeyError "client_id"))
  /\ (forall d i,
        credentials L self = Some d ->
        dict_get "client_id" d = Some i -> dict_get "client_secret" d = None ->
        has_credentials L self
        = if value_truthy i then Raise (KeyError "client_secret") else Ok i).
Proof.
  unfold has_credentials, client_id, client_secret, credentials_field.
  split; [|split; [|split]].
  - intros H. now rewrite H.
  - intros d i s Hc Hi Hs. rewrite Hc.
    destruct d as [|e d]; [discriminate|]. cbn [truthy]. rewrite Hi, Hs.
    destruct (value_truthy i) eqn:Ei.
    + exists s. split; [reflexivity|]. reflexivity.
    + exists i. split; [reflexivity|]. now rewrite Ei.
  - intros d Hc Hne Hi. rewrite Hc.
    destruct d as [|e d]; [congruence|]. cbn [truthy]. now rewrite Hi.
  - intros d i Hc Hi Hs. rewrite Hc.
    destruct d as [|e d]; [discriminate|]. cbn [truthy]. rewrite Hi, Hs.
    destruct (value_truthy i); reflexivity.
Qed.

End credential_store_more.


Lemma retrieve_credentials_undecryptable_witness :
  retrieve_credentials stub_fernet (stub_store None)
    (with_credentials_file (Json (VDict [("client_id", VStr "x5f3a9c")])))
  = (Raise (UnboundLocalError "credentials"),
     with_credentials_file (Json (VDict [("client_id", VStr "x5f3a9c")]))).
Proof.
  apply (retrieve_credentials_undecryptable stub_fernet (stub_store None)
           (with_credentials_file (Json (VDict [("client_id", VStr "x5f3a9c")])))
           ("k" : fernet stub_fernet) (VDict [("client_id", VStr "x5f3a9c")]) 5).
  - exists (Raw "k"), 0. split; reflexivity.
  - reflexivity.
  - right. exists [("client_id", VStr "x5f3a9c")], "client_id", (VStr "x5f3a9c").
    split; [reflexivity|]. split; [now left|].
    intros s Hs. inversion Hs. reflexivity.
Defined.

Lemma save_credentials_to_file_rejects_witness :
  save_credentials_to_file stub_fernet (stub_store None) None keyed_cache
  = (Raise AttributeError, keyed_cache)
  /\ exists w', save_credentials_to_file stub_fernet (stub_store None)
                  (Some [("client_id", VStr "5f3a9c"); ("client_secret", VInt 7)]) keyed_cache
                = (Raise AttributeError, w')
                /\ fs w' = fs keyed_cache.
Proof.
  split.
  - apply (proj1 (save_credentials_to_file_rejects stub_fernet (stub_store None) None
                    keyed_cache)); reflexivity.
  - apply (proj2 (save_credentials_to_file_rejects stub_fernet (stub_store None)
                    (Some [("client_id", VStr "5f3a9c"); ("client_secret", VInt 7)])
                    keyed_cache)
             [("client_id", VStr "5f3a9c"); ("client_secret", VInt 7)]
             "client_secret" (VInt 7)).
    + reflexivity.
    + right. now left.
    + discriminate.
Defined.

Lemma has_credentials_spec_witness :
  has_credentials stub_fernet (stub_store None) = Ok VNone
  /\ has_credentials stub_fernet (stub_store (Some [("client_id", VStr "")]))
     = Ok (VStr "")
  /\ has_credentials stub_fernet (stub_store (Some [("client_secret", VStr "e81dq7")]))
     = Raise (KeyError "client_id").
Proof.
  split; [|split].
  - apply (proj1 (has_credentials_spec stub_fernet (stub_store None))). reflexivity.
  - apply (proj2 (proj2 (proj2 (has_credentials_spec stub_fernet
             (stub_store (Some [("client_id", VStr "")])))))
             [("client_id", VStr "")] (VStr "")); reflexivity.
  - apply (proj1 (proj2 (proj2 (has_credentials_spec stub_fernet
             (stub_store (Some [("client_secret", VStr "e81dq7")])))))
             [("client_secret", VStr "e81dq7")]); [reflexivity | discriminate | reflexivity].
Defined.

Section credential_store_available.
Context (L : FernetLib) (HL : FernetLaws L).

(** X7. After a save of a record of strings and a retrieve (key file
    holding the store's key, credentials file writable), the store's
    [client_id] and [client_secret] are the saved strings, and
    [has_credentials] is true exactly when both are non-empty. *)
Theorem saved_credentials_are_available
    (self : CredentialsFileHandler L) (creds : dict) (w : world) (id secret : string) :
  key_file_holds L w (credentials_fernet_key L self) ->
  writable credentials_path w ->
  dict_get "client_id" creds = Some (VStr id) ->
  dict_get "client_secret" creds = Some (VStr secret) ->
  (forall k x, In (k, x) creds -> exists s, x = VStr s) ->
  exists w1 self' v,
    save_credentials_to_file L self (Some creds) w = (Ok tt, w1)
    /\ retrieve_credentials L self w1 = (Ok (Some creds, self'), w1)
    /\ client_id L self' = Ok (VStr id)
    /\ client_secret L self' = Ok (VStr secret)
    /\ has_credentials L self' = Ok v
    /\ (value_truthy v = true <-> id <> "" /\ secret <> "").
Proof.
  intros Hkey Hw Hid Hsecret Hstr.
  destruct (encrypt_credentials_total L HL (credentials_fernet_key L self) creds w Hstr)
    as (d' & w' & Henc & [Hfs Hc] & Hdec).
  assert (Hne : exists e rest, creds = e :: rest).
  { destruct creds; [discriminate | eauto]. }
  destruct Hne as (e & rest & Hcreds).
  exists (written credentials_path (Json (VDict d')) w'),
         {| credentials_fernet_key := credentials_fernet_key L self;
            credentials := Some creds |},
         (if negb (String.eqb id "") then VStr secret else VStr id).
  split; [|split; [|split; [|split; [|split]]]].
  - unfold save_credentials_to_file. rewrite Hcreds. cbn [truthy]. rewrite <- Hcreds.
    unfold bind at 1. unfold ret at 1. rewrite (bind_Ok _ _ _ _ _ Henc).
    apply write_file_writable. unfold writable in *. now rewrite Hfs.
  - unfold retrieve_credentials.
    erewrite bind_Ok.
    2:{ apply get_fernet_key_of_holds. apply key_file_holds_written.
        destruct Hkey as (c0 & t0 & Hk & Hf). exists c0, t0. rewrite Hfs. eauto. }
    unfold load_credentials_data, bind at 1, read_file. rewrite written_lookup.
    unfold lift, json_load. unfold decrypt_credentials, bind, lift, items.
    rewrite Hdec. reflexivity.
  - unfold client_id, credentials_field. cbn [credentials]. rewrite Hcreds. cbn [truthy].
    rewrite <- Hcreds. now rewrite Hid.
  - unfold client_secret, credentials_field. cbn [credentials]. rewrite Hcreds. cbn [truthy].
    rewrite <- Hcreds. now rewrite Hsecret.
  - unfold has_credentials, client_id, client_secret, credentials_field.
    cbn [credentials]. rewrite Hcreds. cbn [truthy]. rewrite <- Hcreds.
    rewrite Hid, Hsecret. cbn [value_truthy]. destruct (negb (String.eqb id "")); reflexivity.
  - destruct (String.eqb_spec id "") as [->|Hne]; cbn [negb value_truthy].
    + rewrite String.eqb_refl. split; [discriminate | intros [H _]; congruence].
    + destruct (String.eqb_spec secret "") as [->|Hns]; cbn [negb].
      * split; [discriminate | intros [_ H]; congruence].
      * split; auto.
Qed.

End credential_store_available.

Lemma saved_credentials_are_available_witness :
  exists w1 self' v,
    save_credentials_to_file stub_fernet (stub_store None) (Some sample_credentials) keyed_cache
    = (Ok tt, w1)
    /\ retrieve_credentials stub_fernet (stub_store None) w1
       = (Ok (Some sample_credentials, self'), w1)
    /\ client_id stub_fernet self' = Ok (VStr "5f3a9c")
    /\ client_secret stub_fernet self' = Ok (VStr "e81dq7")
    /\ has_credentials stub_fernet self' = Ok v
    /\ (value_truthy v = true <-> "5f3a9c" <> "" /\ "e81dq7" <> "").
Proof.
  apply (saved_credentials_are_available stub_fernet stub_fernet_laws (stub_store None)
           sample_credentials keyed_cache "5f3a9c" "e81dq7").
  - exists (Raw "k"), 0. split; reflexivity.
  - exists 0. reflexivity.
  - reflexivity.
  - reflexivity.
  - intros k x Hin. simpl in Hin.
    repeat (destruct Hin as [Hin|Hin]; [inversion Hin; eauto|]). destruct Hin.
Defined.

(** ** The token cache, further *)

Section token_cache_more.
Context (L : FernetLib).

Lemma get_cached_token_world (self : CustomCacheFileHandler L) (w : world) :
  snd (get_cached_token L self w) = w.
Proof.
  unfold get_cached_token.
  destruct (fs w !! cache_path L self) as [n|] eqn:E.
  - rewrite (bind_Ok _ _ _ _ _ (os_path_exists_Some _ _ _ E)).
    unfold bind at 1. unfold read_file. rewrite E.
    destruct n as [c t|t]; [|reflexivity].
    unfold bind at 1. unfold lift at 1. destruct (json_load c) as [v|e]; [|reflexivity].
    unfold bind at 1. unfold lift at 1. destruct (items v) as [d|e]; [|reflexivity].
    unfold bind.
    pose proof (dict_comprehension_reads
                  (fun _ v => if value_in v ATTRS_TO_ENCRYPT
                              then util.decrypt_str L (fernet_key L self) v else ret v)
                  d w) as Hr.
    destruct (dict_comprehension _ d w) as [[d'|e] w1]; simpl in Hr |- *;
      apply Hr; intros _ x w0; destruct (value_in x ATTRS_TO_ENCRYPT);
      first [apply decrypt_str_reads | reflexivity].
  - now rewrite (bind_Ok _ _ _ _ _ (os_path_exists_None _ _ E)).
Qed.

(** X8. [get_cached_token] only reads: whatever it returns or raises, the
    world is as it was. A missing cache file gives [None]; a file whose
    bytes are text but not JSON raises [JSONDecodeError], one whose bytes
    are not text raises [UnicodeDecodeError], and JSON that is not an
    object raises [AttributeError], none being taken for "no token". *)
Theorem get_cached_token_reads (self : CustomCacheFileHandler L) (w : world) :
  snd (get_cached_token L self w) = w
  /\ (fs w !! cache_path L self = None -> get_cached_token L self w = (Ok None, w))
  /\ (forall b t, fs w !! cache_path L self = Some (File (Raw b) t) ->
                  get_cached_token L self w
                  = (Raise (if text_decodes b then JSONDecodeError
                            else UnicodeDecodeError), w))
  /\ (forall v t, fs w !! cache_path L self = Some (File (Json v) t) ->
                  (forall d, v <> VDict d) ->
                  get_cached_token L self w = (Raise AttributeError, w)).
Proof.
  split; [apply get_cached_token_world|]. unfold get_cached_token. split; [|split].
  - intros E. now rewrite (bind_Ok _ _ _ _ _ (os_path_exists_None _ _ E)).
  - intros b t E. rewrite (bind_Ok _ _ _ _ _ (os_path_exists_Some _ _ _ E)).
    unfold bind, read_file. rewrite E. unfold lift, json_load.
    now destruct (text_decodes b).
  - intros v t E Hv. rewrite (bind_Ok _ _ _ _ _ (os_path_exists_Some _ _ _ E)).
    unfold bind, read_file. rewrite E. unfold lift, json_load, items.
    destruct v; try reflexivity. exfalso. now apply (Hv d).
Qed.

Lemma write_file_frame p c w q :
  q <> p -> q <> dirname p ->
  fs (snd (write_file p c w)) !! q = fs w !! q
  /\ clock (snd (write_file p c w)) = clock w.
Proof.
  intros Hp Hd. unfold write_file.
  destruct (fs w !! p) as [[c0 t0|t0]|]; simpl.
  - split; [|reflexivity]. now rewrite lookup_insert_ne by congruence.
  - split; reflexivity.
  - destruct (fs w !! dirname p) as [[c0 t0|t0]|]; simpl; try (split; reflexivity).
    split; [|reflexivity]. now rewrite !lookup_insert_ne by congruence.
Qed.

(** X9. Whatever the record and whatever the outcome, a save touches at
    most the cache file and the entry of its directory: every other path
    keeps its entry (the key file and the credentials file among them),
    and the clock is not moved. *)
Theorem save_token_to_cache_frame
    (self : CustomCacheFileHandler L) (token_info : dict) (w : world) (q : string) :
  q <> cache_path L self ->
  q <> dirname (cache_path L self) ->
  fs (snd (save_token_to_cache L self token_info w)) !! q = fs w !! q
  /\ clock (snd (save_token_to_cache L self token_info w)) = clock w.
Proof.
  intros Hp Hd. unfold save_token_to_cache.
  rewrite (bind_Ok _ _ _ _ _ (is_cache_fresh_eq L self w)).
  destruct (negb _); [|split; reflexivity].
  destruct (encrypt_entries_total L self token_info w) as (d' & w' & E & [Hfs Hc] & _).
  rewrite (bind_Ok _ _ _ _ _ E). unfold bind, lift.
  destruct (dict_pop "expires_in" d') as [popped|e]; simpl.
  - destruct (write_file_frame (cache_path L self)
                (Json (VDict (dict_set "expires_at" (fst popped) (snd popped)))) w' q Hp Hd)
      as [Hq Hcl].
    split; congruence.
  - split; congruence.
Qed.

(** X10. The freshness gate over two calls. Let a first record, with an
    [expires_in] field and no value that is the text [access_token] or
    [refresh_token], be saved on a stale cache that can be written. It
    stays the cached one when a second save, of any record, comes less
    than 100 later: the second save returns normally and writes nothing,
    and a read then returns the first record (with its renamed field),
    not the second. *)
Theorem second_save_within_interval_is_dropped
    (self : CustomCacheFileHandler L) (first second : dict) (w : world) (v : value)
    (later : Z) :
  cache_stale L self w ->
  writable (cache_path L self) w ->
  dict_get "expires_in" first = Some v ->
  (forall k x, In (k, x) first -> value_in x ATTRS_TO_ENCRYPT = false) ->
  later - clock w < 100 ->
  exists w1,
    save_token_to_cache L self first w = (Ok tt, w1)
    /\ save_token_to_cache L self second (World (fs w1) later (urandom_calls w1))
       = (Ok tt, World (fs w1) later (urandom_calls w1))
    /\ get_cached_token L self (World (fs w1) later (urandom_calls w1))
       = (Ok (Some (dict_set "expires_at" v (dict_remove "expires_in" first))),
          World (fs w1) later (urandom_calls w1)).
Proof.
  intros Hstale Hw Hv Hplain Hlater.
  pose (d := dict_set "expires_at" v (dict_remove "expires_in" first)).
  exists (written (cache_path L self) (Json (VDict d)) w).
  assert (Hlook : fs (written (cache_path L self) (Json (VDict d)) w) !! cache_path L self
                  = Some (File (Json (VDict d)) (clock w))) by apply written_lookup.
  split; [|split].
  - now apply save_token_to_cache_plain.
  - apply (save_token_to_cache_within_interval L self second
             (World (fs (written (cache_path L self) (Json (VDict d)) w)) later
                    (urandom_calls (written (cache_path L self) (Json (VDict d)) w)))
             _ Hlook).
    exact Hlater.
  - apply (get_cached_token_plain L self d _ (clock w)); [exact Hlook|].
    intros k x Hin. unfold d in Hin. apply In_dict_set in Hin as [->|Hin].
    + apply (Hplain "expires_in"). now apply dict_get_In.
    + apply (Hplain k). now apply In_dict_remove in Hin.
Qed.

Lemma dict_comprehension_get (f : string -> value -> M value) (d d' : dict) w w' k x :
  dict_comprehension f d w = (Ok d', w') ->
  dict_get k d = Some x ->
  (forall k0 w0, f k0 x w0 = (Ok x, w0)) ->
  dict_get k d' = Some x.
Proof.
  revert d' w. induction d as [|[k1 x1] d IH]; intros d' w Hrun Hget Hid; [discriminate|].
  cbn [dict_comprehension] in Hrun.
  apply bind_inv_Ok in Hrun as (y & w1 & Hy & Hrun).
  apply bind_inv_Ok in Hrun as (d1 & w2 & Hd1 & Hrun).
  unfold ret in Hrun. inversion Hrun; subst d' w'.
  simpl in Hget |- *. destruct (String.eqb k k1).
  - inversion Hget; subst x1. rewrite Hid in Hy. inversion Hy. reflexivity.
  - now apply (IH d1 w1).
Qed.

Lemma dict_get_Some_keys k (d d' : dict) :
  map fst d' = map fst d -> is_Some (dict_get k d) -> is_Some (dict_get k d').
Proof.
  intros Hk [x Hx]. destruct (dict_get k d') eqn:E; [eauto|].
  rewrite (dict_get_None_keys k d' d (eq_sym Hk) E) in Hx. discriminate.
Qed.

(** X11. For any record with an [expires_in] field, whatever its values,
    a save on a stale cache that can be written succeeds, and the record
    on disk has no [expires_in] field, has an [expires_at] field, has
    every other field of the incoming record and no further one, and
    holds unchanged every value that is not the text [access_token] or
    [refresh_token]. *)
Theorem save_token_to_cache_writes_fields
    (self : CustomCacheFileHandler L) (token_info : dict) (w : world) :
  cache_stale L self w ->
  writable (cache_path L self) w ->
  is_Some (dict_get "expires_in" token_info) ->
  exists on_disk w',
    save_token_to_cache L self token_info w = (Ok tt, w')
    /\ fs w' !! cache_path L self = Some (File (Json (VDict on_disk)) (clock w))
    /\ dict_get "expires_in" on_disk = None
    /\ is_Some (dict_get "expires_at" on_disk)
    /\ (forall k, k <> "expires_in" -> k <> "expires_at" ->
                  (is_Some (dict_get k on_disk) <-> is_Some (dict_get k token_info)))
    /\ (forall k x, k <> "expires_in" -> k <> "expires_at" ->
                    dict_get k token_info = Some x ->
                    value_in x ATTRS_TO_ENCRYPT = false ->
                    dict_get k on_disk = Some x).
Proof.
  intros Hstale Hw Hin.
  destruct (encrypt_entries_total L self token_info w) as (d' & w0 & E & [Hfs Hc] & Hkeys).
  destruct (dict_get_Some_keys "expires_in" token_info d' Hkeys Hin) as [v Hv].
  exists (dict_set "expires_at" v (dict_remove "expires_in" d')),
         (written (cache_path L self)
            (Json (VDict (dict_set "expires_at" v (dict_remove "expires_in" d')))) w0).
  split; [|split; [|split; [|split; [|split]]]].
  - rewrite (save_token_to_cache_stale L _ _ _ Hstale).
    rewrite (bind_Ok _ _ _ _ _ E). unfold bind, lift, dict_pop. rewrite Hv. cbn [fst snd].
    apply write_file_writable. unfold writable in *. now rewrite Hfs.
  - rewrite written_lookup. now rewrite Hc.
  - rewrite dict_get_set_ne by discriminate. apply dict_get_remove_eq.
  - rewrite dict_get_set_eq. eauto.
  - intros k H1 H2. rewrite dict_get_set_ne by exact H2.
    rewrite dict_get_remove_ne by exact H1. split.
    + apply dict_get_Some_keys. now symmetry.
    + now apply dict_get_Some_keys.
  - intros k x H1 H2 Hx Hplain. rewrite dict_get_set_ne by exact H2.
    rewrite dict_get_remove_ne by exact H1.
    apply (dict_comprehension_get _ _ _ _ _ _ _ E Hx).
    intros _ w1. now rewrite Hplain.
Qed.

(** C3. For every token record with an [expires_in] field holding a
    lifetime (any value but the text [access_token] or [refresh_token];
    the other values are free), a save on a cache that is not fresh and
    can be written succeeds and writes a record that holds the incoming
    [expires_in] value, unconverted, under [expires_at], and has no
    [expires_in] field. *)
Theorem save_token_to_cache_renames_expires_in
    (self : CustomCacheFileHandler L) (token_info : dict) (w : world) (v : value) :
  cache_stale L self w ->
  writable (cache_path L self) w ->
  dict_get "expires_in" token_info = Some v ->
  value_in v ATTRS_TO_ENCRYPT = false ->
  exists on_disk w',
    save_token_to_cache L self token_info w = (Ok tt, w')
    /\ fs w' !! cache_path L self = Some (File (Json (VDict on_disk)) (clock w))
    /\ dict_get "expires_at" on_disk = Some v
    /\ dict_get "expires_in" on_disk = None.
Proof.
  intros Hstale Hw Hv Hplain.
  destruct (encrypt_entries_total L self token_info w) as (d' & w0 & E & [Hfs Hc] & Hkeys).
  assert (Hv' : dict_get "expires_in" d' = Some v).
  { apply (dict_comprehension_get _ _ _ _ _ _ _ E Hv). intros _ w1. now rewrite Hplain. }
  exists (dict_set "expires_at" v (dict_remove "expires_in" d')),
         (written (cache_path L self)
            (Json (VDict (dict_set "expires_at" v (dict_remove "expires_in" d')))) w0).
  split; [|split; [|split]].
  - rewrite (save_token_to_cache_stale L _ _ _ Hstale).
    rewrite (bind_Ok _ _ _ _ _ E). unfold bind, lift, dict_pop. rewrite Hv'. cbn [fst snd].
    apply write_file_writable. unfold writable in *. now rewrite Hfs.
  - rewrite written_lookup. now rewrite Hc.
  - apply dict_get_set_eq.
  - rewrite dict_get_set_ne by discriminate. apply dict_get_remove_eq.
Qed.

(** X12. A store or a cache handler that was constructed leaves the key
    file holding its key: the calls it makes afterwards read the key it
    encrypts with. *)
Theorem constructed_handlers_hold_the_key (w : world) :
  (forall self w', CredentialsFileHandler_init L w = (Ok self, w') ->
                   key_file_holds L w' (credentials_fernet_key L self))
  /\ (forall self w', CustomCacheFileHandler_init L w = (Ok self, w') ->
                      key_file_holds L w' (fernet_key L self)
                      /\ cache_path L self = CUSTOM_CACHE_PATH).
Proof.
  split.
  - intros self w'. apply CredentialsFileHandler_init_holds.
  - intros self w' H. unfold CustomCacheFileHandler_init in H.
    apply bind_inv_Ok in H as (k & w1 & Hk & H).
    unfold ret in H. inversion H; subst. simpl. split; [|reflexivity].
    now apply (get_fernet_key_holds L w).
Qed.

End token_cache_more.

Lemma get_cached_token_reads_witness :
  get_cached_token stub_fernet stub_handler empty_cache = (Ok None, empty_cache)
  /\ get_cached_token stub_fernet stub_handler (with_token_file (Raw ""))
     = (Raise JSONDecodeError, with_token_file (Raw ""))
  /\ get_cached_token stub_fernet stub_handler (with_token_file (Raw not_text))
     = (Raise UnicodeDecodeError, with_token_file (Raw not_text))
  /\ get_cached_token stub_fernet stub_handler (with_token_file (Json (VList [])))
     = (Raise AttributeError, with_token_file (Json (VList []))).
Proof.
  split; [|split; [|split]].
  - apply (proj1 (proj2 (get_cached_token_reads stub_fernet stub_handler empty_cache))).
    reflexivity.
  - apply (proj1 (proj2 (proj2 (get_cached_token_reads stub_fernet stub_handler
                                  (with_token_file (Raw ""))))) "" 5).
    reflexivity.
  - apply (proj1 (proj2 (proj2 (get_cached_token_reads stub_fernet stub_handler
                                  (with_token_file (Raw not_text))))) not_text 5).
    reflexivity.
  - apply (proj2 (proj2 (proj2 (get_cached_token_reads stub_fernet stub_handler
                                  (with_token_file (Json (VList [])))))) (VList []) 5).
    + reflexivity.
    + discriminate.
Defined.

Lemma save_token_to_cache_frame_witness :
  fs (snd (save_token_to_cache stub_fernet stub_handler sample_token keyed_cache))
    !! "../cache/keys/spotify.key"
  = Some (File (Raw "k") 0)
  /\ clock (snd (save_token_to_cache stub_fernet stub_handler sample_token keyed_cache)) = 1000.
Proof.
  apply (save_token_to_cache_frame stub_fernet stub_handler sample_token keyed_cache
           "../cache/keys/spotify.key"); discriminate.
Defined.

Lemma second_save_within_interval_is_dropped_witness :
  exists w1,
    save_token_to_cache stub_fernet stub_handler sample_token empty_cache = (Ok tt, w1)
    /\ save_token_to_cache stub_fernet stub_handler odd_token
         (World (fs w1) 1099 (urandom_calls w1))
       = (Ok tt, World (fs w1) 1099 (urandom_calls w1))
    /\ get_cached_token stub_fernet stub_handler (World (fs w1) 1099 (urandom_calls w1))
       = (Ok (Some (dict_set "expires_at" (VInt 3600)
                      (dict_remove "expires_in" sample_token))),
          World (fs w1) 1099 (urandom_calls w1)).
Proof.
  apply (second_save_within_interval_is_dropped stub_fernet stub_handler sample_token
           odd_token empty_cache (VInt 3600) 1099).
  - exact I.
  - exists 0. reflexivity.
  - reflexivity.
  - intros k x Hin. simpl in Hin.
    repeat (destruct Hin as [Hin|Hin]; [inversion Hin; reflexivity|]). destruct Hin.
  - reflexivity.
Defined.

Lemma save_token_to_cache_writes_fields_witness :
  exists on_disk w',
    save_token_to_cache stub_fernet stub_handler odd_token empty_cache = (Ok tt, w')
    /\ fs w' !! "../cache/token_cache.json" = Some (File (Json (VDict on_disk)) 1000)
    /\ dict_get "expires_in" on_disk = None
    /\ dict_get "access_token" on_disk = Some (VStr "BQDj3kTq").
Proof.
  destruct (save_token_to_cache_writes_fields stub_fernet stub_handler odd_token empty_cache)
    as (on_disk & w' & Hsave & Hfile & Hin & _ & _ & Hvalues).
  - exact I.
  - exists 0. reflexivity.
  - eexists. reflexivity.
  - exists on_disk, w'. repeat split; try assumption.
    apply Hvalues; [discriminate | discriminate | reflexivity | reflexivity].
Defined.

Lemma save_token_to_cache_renames_expires_in_witness :
  exists on_disk w',
    save_token_to_cache stub_fernet stub_handler sample_token empty_cache = (Ok tt, w')
    /\ fs w' !! "../cache/token_cache.json" = Some (File (Json (VDict on_disk)) 1000)
    /\ dict_get "expires_at" on_disk = Some (VInt 3600)
    /\ dict_get "expires_in" on_disk = None.
Proof.
  apply (save_token_to_cache_renames_expires_in stub_fernet stub_handler sample_token
           empty_cache (VInt 3600)).
  - exact I.
  - exists 0. reflexivity.
  - reflexivity.
  - reflexivity.
Defined.

Lemma constructed_handlers_hold_the_key_witness :
  key_file_holds stub_fernet
    (snd (CustomCacheFileHandler_init stub_fernet empty_cache))
    ("k" ++ String (ascii_of_nat 0) "" : fernet stub_fernet).
Proof.
  apply (proj2 (constructed_handlers_hold_the_key stub_fernet empty_cache)
           {| cache_path := CUSTOM_CACHE_PATH;
              fernet_key := "k" ++ String (ascii_of_nat 0) "" : fernet stub_fernet |}).
  reflexivity.
Defined.

(** ** The genre aggregator, further *)

Section aggregator_more.
Local Open Scope nat_scope.

Lemma counter_add_keys_In k' k n (c : Counter) :
  In k' (map fst (counter_add k n c)) <-> k' = k \/ In k' (map fst c).
Proof.
  induction c as [|[k1 m] c IH]; simpl.
  - intuition.
  - destruct (String.eqb_spec k k1) as [->|Hne]; simpl.
    + intuition.
    + rewrite IH. intuition.
Qed.

Lemma counter_add_NoDup k n (c : Counter) :
  List.NoDup (map fst c) -> List.NoDup (map fst (counter_add k n c)).
Proof.
  induction c as [|[k1 m] c IH]; simpl; intros Hnd.
  - constructor; [intros [] | constructor].
  - destruct (String.eqb_spec k k1) as [->|Hne]; simpl; [exact Hnd|].
    inversion Hnd as [|? ? Hnotin Hnd']; subst. constructor.
    + rewrite counter_add_keys_In. intros [Heq|Hin]; [congruence | contradiction].
    + now apply IH.
Qed.

Lemma counter_add_positive k n (c : Counter) :
  1 <= n -> Forall (fun kn => 1 <= snd kn) c ->
  Forall (fun kn => 1 <= snd kn) (counter_add k n c).
Proof.
  intros Hn. induction c as [|[k1 m] c IH]; simpl; intros Hall.
  - constructor; [simpl; lia | constructor].
  - inversion Hall as [|? ? Hm Hall']; subst. simpl in Hm.
    destruct (String.eqb k k1); constructor; simpl; auto; lia.
Qed.

(** What the counting loops keep: distinct keys, counts of at least 1. *)
Lemma count_page_invariant (items : list playlist_item) (c : Counter) :
  List.NoDup (map fst c) /\ Forall (fun kn => 1 <= snd kn) c ->
  List.NoDup (map fst (count_page items c))
  /\ Forall (fun kn => 1 <= snd kn) (count_page items c).
Proof.
  unfold count_page. revert c. induction items as [|t items IH]; intros c Hc; simpl.
  - exact Hc.
  - apply IH. generalize (track_artists t) as ids. intros ids. revert c Hc.
    induction ids as [|i ids IHi]; intros c [Hnd Hpos]; simpl.
    + now split.
    + apply IHi. split; [now apply counter_add_NoDup | now apply counter_add_positive].
Qed.

Lemma occurrences_In k (l : list string) : In k l <-> 1 <= occurrences k l.
Proof.
  induction l as [|x l IH]; simpl.
  - unfold occurrences. simpl. split; [intros [] | lia].
  - rewrite occurrences_cons. destruct (String.eqb_spec k x) as [->|Hne].
    + split; [lia | now left].
    + rewrite IH. simpl. split; [intros [H|H]; [congruence | exact H] | now right].
Qed.

Lemma counter_get_In k (c : Counter) :
  Forall (fun kn => 1 <= snd kn) c ->
  (In k (map fst c) <-> 1 <= counter_get k c).
Proof.
  induction c as [|[k1 m] c IH]; simpl; intros Hall.
  - split; [intros [] | lia].
  - inversion Hall as [|? ? Hm Hall']; subst. simpl in Hm.
    destruct (String.eqb_spec k k1) as [->|Hne].
    + split; [intros _; exact Hm | now left].
    + rewrite <- (IH Hall'). split; [intros [H|H]; [congruence | exact H] | now right].
Qed.

(** X13. Whatever the client answers, the table [get_artist_counts]
    returns has no artist twice and no count below 1, and its keys are
    exactly the artists of the tracks its calls listed: every artist is
    looked up once, and none that was not listed. *)
Theorem get_artist_counts_table (fuel : nat) (spotapi : Spotify) (playlist_id : string)
    (artists_count : Counter) (calls : list listing_call) :
  get_artist_counts fuel spotapi playlist_id = Some (artists_count, calls) ->
  List.NoDup (map fst artists_count)
  /\ Forall (fun kn => 1 <= snd kn) artists_count
  /\ forall k, In k (map fst artists_count)
               <-> In k (flat_map track_artists (listed spotapi calls)).
Proof.
  intros H. unfold get_artist_counts in H.
  apply get_artist_counts_loop_listed in H as (more & Hcalls & ->).
  simpl in Hcalls. subst more.
  destruct (count_page_invariant (listed spotapi calls) []) as [Hnd Hpos].
  { split; constructor. }
  split; [exact Hnd|]. split; [exact Hpos|].
  intros k. rewrite (counter_get_In k _ Hpos), count_page_get, occurrences_In. simpl. lia.
Qed.

Lemma ceil_div_50_bounds x : x <= ceil_div x 50 * 50 < x + 50.
Proof.
  unfold ceil_div.
  pose proof (Nat.div_mod_eq (x + (50 - 1)) 50) as Hdiv.
  pose proof (Nat.mod_upper_bound (x + (50 - 1)) 50) as Hmod.
  lia.
Qed.

Lemma chunks_concat {A} (l : list A) k :
  forall o, length l - o <= k * 50 ->
  concat (map (fun j => firstn 50 (skipn (o + j * 50) l)) (seq 0 k)) = skipn o l.
Proof.
  induction k as [|k IH]; intros o Hlen.
  - simpl. symmetry. apply List.skipn_all2. lia.
  - cbn [seq map concat]. rewrite <- List.seq_shift, List.map_map.
    rewrite (List.map_ext _ (fun j => firstn 50 (skipn (o + 50 + j * 50) l))).
    2:{ intros j. do 2 f_equal. lia. }
    rewrite IH by lia. rewrite Nat.mul_0_l, Nat.add_0_r.
    replace (skipn (o + 50) l) with (skipn 50 (skipn o l))
      by (rewrite List.skipn_skipn; f_equal; lia).
    apply List.firstn_skipn.
Qed.

Lemma artist_batches_eq (c : Counter) :
  artist_batches c
  = map (fun j => firstn 50 (skipn (0 + j * 50) (map fst c)))
        (seq 0 (ceil_div (length (map fst c)) 50)).
Proof.
  unfold artist_batches, range, ceil_div. rewrite List.map_map, Nat.sub_0_r. reflexivity.
Qed.

Lemma fold_left_batches {A B C} (f : A -> C -> A) (g : B -> C) (l : list B) (a : A) :
  fold_left f (map g l) a = fold_left (fun acc x => f acc (g x)) l a.
Proof. revert a. induction l as [|x l IH]; intros a; simpl; [reflexivity | apply IH]. Qed.

Lemma fold_left_agree {A B} (f g : A -> B -> A) (l : list B) (a : A) :
  (forall acc x, In x l -> f acc x = g acc x) -> fold_left f l a = fold_left g l a.
Proof.
  revert a. induction l as [|x l IH]; intros a H; simpl; [reflexivity|].
  rewrite (H a x) by now left. apply IH. intros acc y Hy. apply H. now right.
Qed.

Lemma get_genre_counts_eq spotapi (artists_count : Counter) :
  get_genre_counts spotapi artists_count
  = fold_left (fun genres batch =>
                 fold_left (fold_artist artists_count) (artists spotapi batch) genres)
              (artist_batches artists_count) [].
Proof.
  unfold get_genre_counts, artist_batches.
  now rewrite (fold_left_batches
                 (fun genres batch =>
                    fold_left (fold_artist artists_count) (artists spotapi batch) genres)).
Qed.

(** X14. [get_genre_counts] folds, batch after batch, the artist objects
    the client answers to the batches of the table's artists, and its
    result depends on the client through these answers only. The batches
    split the artists of the table, in the table's order, into slices of
    50: at least 1 and at most 50 identifiers each, [ceil (n / 50)]
    batches for [n] artists, none for an empty table, and every artist
    in exactly one batch. *)
Theorem get_genre_counts_batches (spotapi : Spotify) (artists_count : Counter) :
  get_genre_counts spotapi artists_count
  = fold_left (fun genres batch =>
                 fold_left (fold_artist artists_count) (artists spotapi batch) genres)
              (artist_batches artists_count) []
  /\ (forall other,
        (forall batch, In batch (artist_batches artists_count) ->
                       artists other batch = artists spotapi batch) ->
        get_genre_counts other artists_count = get_genre_counts spotapi artists_count)
  /\ concat (artist_batches artists_count) = map fst artists_count
  /\ Forall (fun batch => 1 <= length batch <= 50) (artist_batches artists_count)
  /\ length (artist_batches artists_count) = ceil_div (length artists_count) 50
  /\ (forall j, j < length (artist_batches artists_count) ->
                nth j (artist_batches artists_count) []
                = firstn 50 (skipn (j * 50) (map fst artists_count))).
Proof.
  pose proof (ceil_div_50_bounds (length (map fst artists_count))) as Hb.
  split; [|split; [|split; [|split; [|split]]]].
  - apply get_genre_counts_eq.
  - intros other Hsame. rewrite !get_genre_counts_eq. apply fold_left_agree.
    intros acc batch Hin. now rewrite (Hsame batch Hin).
  - rewrite artist_batches_eq, chunks_concat; [reflexivity | lia].
  - rewrite artist_batches_eq. apply List.Forall_forall. intros batch Hin.
    apply List.in_map_iff in Hin as (j & <- & Hj). apply List.in_seq in Hj.
    rewrite List.length_firstn, List.length_skipn. lia.
  - rewrite artist_batches_eq, List.length_map, List.length_seq, List.length_map.
    reflexivity.
  - intros j Hj. rewrite artist_batches_eq in Hj |- *.
    rewrite List.length_map, List.length_seq in Hj.
    rewrite (List.nth_indep _ [] (firstn 50 (skipn (0 + 0 * 50) (map fst artists_count))))
      by (now rewrite List.length_map, List.length_seq).
    rewrite (List.map_nth (fun j => firstn 50 (skipn (0 + j * 50) (map fst artists_count)))).
    now rewrite List.seq_nth.
Qed.

End aggregator_more.

Section genre_totals.
Local Open Scope nat_scope.

Lemma weighted_add (f : string -> nat) k n (c : Counter) :
  list_sum (map (fun kn => f (fst kn) * snd kn) (counter_add k n c))
  = list_sum (map (fun kn => f (fst kn) * snd kn) c) + f k * n.
Proof.
  induction c as [|[k1 m] c IH]; simpl.
  - lia.
  - destruct (String.eqb_spec k k1) as [->|Hne]; simpl; [lia | rewrite IH; lia].
Qed.

Lemma weighted_count_page (f : string -> nat) (items : list playlist_item) (c : Counter) :
  list_sum (map (fun kn => f (fst kn) * snd kn) (count_page items c))
  = list_sum (map (fun kn => f (fst kn) * snd kn) c)
    + list_sum (map f (flat_map track_artists items)).
Proof.
  unfold count_page. revert c. induction items as [|t items IH]; intros c; simpl.
  - lia.
  - rewrite IH, List.map_app, list_sum_app.
    assert (Hin : forall ids c0,
      list_sum (map (fun kn => f (fst kn) * snd kn)
                    (fold_left (fun acc i => counter_add i 1 acc) ids c0))
      = list_sum (map (fun kn => f (fst kn) * snd kn) c0) + list_sum (map f ids)).
    { induction ids as [|i ids IHi]; intros c0; simpl; [lia|].
      rewrite IHi, weighted_add. lia. }
    rewrite Hin. lia.
Qed.

Lemma counter_get_notin k (c : Counter) : ~ In k (map fst c) -> counter_get k c = 0.
Proof.
  induction c as [|[k1 m] c IH]; simpl; [reflexivity|].
  intros Hnotin. destruct (String.eqb_spec k k1) as [->|Hne]; [tauto|]. apply IH. tauto.
Qed.

Lemma weighted_keys (f : string -> nat) (c : Counter) :
  List.NoDup (map fst c) ->
  list_sum (map (fun k => f k * counter_get k c) (map fst c))
  = list_sum (map (fun kn => f (fst kn) * snd kn) c).
Proof.
  induction c as [|[k1 m] c IH]; simpl; intros Hnd; [reflexivity|].
  inversion Hnd as [|? ? Hnotin Hnd']; subst.
  rewrite String.eqb_refl. f_equal. rewrite <- (IH Hnd').
  f_equal. apply List.map_ext_in. intros k Hin.
  destruct (String.eqb_spec k k1) as [->|Hne]; [contradiction | reflexivity].
Qed.

Lemma occurrences_flat_map {A} g (h : A -> list string) (l : list A) :
  occurrences g (flat_map h l) = list_sum (map (fun x => occurrences g (h x)) l).
Proof.
  induction l as [|x l IH]; simpl; [reflexivity|].
  now rewrite occurrences_app, IH.
Qed.

Lemma length_flat_map_sum {A B} (h : A -> list B) (l : list A) :
  length (flat_map h l) = list_sum (map (fun x => length (h x)) l).
Proof.
  induction l as [|x l IH]; simpl; [reflexivity|].
  now rewrite List.length_app, IH.
Qed.

Lemma fold_genres_total n (gs : list string) (genres : Counter) :
  counter_total (fold_left (fun acc genre => counter_add genre n acc) gs genres)
  = counter_total genres + length gs * n.
Proof.
  revert genres. induction gs as [|k gs IH]; intros genres; simpl.
  - lia.
  - rewrite IH, counter_total_add. lia.
Qed.

Lemma list_sum_cons_eq x l : list_sum (x :: l) = x + list_sum l.
Proof. reflexivity. Qed.

Lemma get_genre_counts_total spotapi artists_count :
  counter_total (get_genre_counts spotapi artists_count)
  = list_sum (map (fun a => length (default [] (artist_genres a))
                            * counter_get (artist_id a) artists_count)
                  (looked_up spotapi artists_count)).
Proof.
  unfold get_genre_counts, looked_up.
  generalize (range 0 (length (map fst artists_count)) 50) as starts.
  assert (Hdata : forall data genres,
    counter_total (fold_left (fold_artist artists_count) data genres)
    = counter_total genres
      + list_sum (map (fun a => length (default [] (artist_genres a))
                                * counter_get (artist_id a) artists_count) data)).
  { induction data as [|a data IH]; intros genres; [simpl; lia|].
    cbn [fold_left map]. rewrite IH, list_sum_cons_eq.
    assert (Hone : counter_total (fold_artist artists_count genres a)
                   = counter_total genres
                     + length (default [] (artist_genres a))
                       * counter_get (artist_id a) artists_count)
      by (unfold fold_artist; apply fold_genres_total).
    rewrite Hone. lia. }
  assert (Hgen : forall starts genres,
    counter_total
      (fold_left
         (fun genres i =>
            fold_left (fold_artist artists_count)
              (artists spotapi (firstn 50 (skipn i (map fst artists_count)))) genres)
         starts genres)
    = counter_total genres
      + list_sum (map (fun a => length (default [] (artist_genres a))
                                * counter_get (artist_id a) artists_count)
                      (flat_map (fun i => artists spotapi
                                   (firstn 50 (skipn i (map fst artists_count)))) starts))).
  { induction starts as [|i starts IH]; intros genres; [simpl; lia|].
    cbn [fold_left flat_map].
    rewrite IH, Hdata, List.map_app, list_sum_app. lia. }
  intros starts. rewrite Hgen. reflexivity.
Qed.

Lemma looked_up_details spotapi details (c : Counter) :
  looks_up spotapi details ->
  looked_up spotapi c = map details (map fst c).
Proof.
  intros [Hans _]. unfold looked_up.
  rewrite (List.flat_map_ext _ (fun i => map details (firstn 50 (skipn i (map fst c))))).
  2:{ intros i. apply Hans. }
  rewrite List.flat_map_concat_map, <- (List.map_map _ (map details)), <- List.concat_map.
  f_equal. pose proof (ceil_div_50_bounds (length (map fst c))) as Hb.
  change (map (fun i => firstn 50 (skipn i (map fst c))) (range 0 (length (map fst c)) 50))
    with (artist_batches c).
  rewrite artist_batches_eq, chunks_concat; [reflexivity | lia].
Qed.

(** X15. Over a client that pages correctly through the tracks [ts] and
    answers each lookup with the objects of the identifiers asked,
    [get_combined_genres] returns, for enough fuel, a table in which the
    count of a genre is the number of (track, artist) pairs whose artist
    carries that tag, and whose counts add up to the number of (track,
    artist, tag) triples: an artist on more tracks weighs more, and no
    artist is counted twice by the batching. *)
Theorem get_combined_genres_counts_plays (spotapi : Spotify) (playlist_id : string)
    (ts : list playlist_item) (details : string -> artist_object) (fuel : nat) :
  pages_over spotapi playlist_id ts ->
  looks_up spotapi details ->
  Nat.max 1 (ceil_div (length ts) 100) <= fuel ->
  exists genres,
    get_combined_genres fuel spotapi playlist_id
    = Some (genres, get_track_total spotapi playlist_id)
    /\ (forall genre, counter_get genre genres = occurrences genre (played_tags details ts))
    /\ counter_total genres = length (played_tags details ts).
Proof.
  intros Hpages Hlook Hfuel.
  exists (get_genre_counts spotapi (count_page ts [])).
  assert (Hrun : get_artist_counts fuel spotapi playlist_id
                 = Some (count_page ts [],
                         map (fun j => (playlist_id, 0 + j * 100, 100))
                             (seq 0 (Nat.max 1 (ceil_div (length ts - 0) 100))))).
  { unfold get_artist_counts.
    rewrite (get_artist_counts_loop_pages spotapi playlist_id ts Hpages
               (Nat.max 1 (ceil_div (length ts) 100) - 1)).
    - reflexivity.
    - pose proof (ceil_div_100_bounds (length ts)). lia.
    - lia. }
  destruct (count_page_invariant ts []) as [Hnd _]; [split; constructor|].
  destruct Hlook as [Hans Hid].
  split; [|split].
  - unfold get_combined_genres. now rewrite Hrun.
  - intros genre. rewrite get_genre_counts_get.
    rewrite (looked_up_details spotapi details _ (conj Hans Hid)), List.map_map.
    rewrite (List.map_ext _ (fun k => occurrences genre (default [] (artist_genres (details k)))
                                      * counter_get k (count_page ts []))).
    2:{ intros k. unfold contribution. now rewrite Hid. }
    rewrite (weighted_keys (fun k => occurrences genre (default [] (artist_genres (details k))))
               _ Hnd).
    rewrite (weighted_count_page
               (fun k => occurrences genre (default [] (artist_genres (details k)))) ts []).
    unfold played_tags. rewrite occurrences_flat_map. reflexivity.
  - rewrite get_genre_counts_total.
    rewrite (looked_up_details spotapi details _ (conj Hans Hid)), List.map_map.
    rewrite (List.map_ext _ (fun k => length (default [] (artist_genres (details k)))
                                      * counter_get k (count_page ts []))).
    2:{ intros k. now rewrite Hid. }
    rewrite (weighted_keys (fun k => length (default [] (artist_genres (details k)))) _ Hnd).
    rewrite (weighted_count_page
               (fun k => length (default [] (artist_genres (details k)))) ts []).
    unfold played_tags. rewrite length_flat_map_sum. reflexivity.
Qed.

End genre_totals.

Lemma get_genre_counts_batches_witness :
  get_genre_counts (list_source [] scenario_details) [("X", 2); ("Y", 1)]%nat
  = get_genre_counts scenario [("X", 2); ("Y", 1)]%nat.
Proof.
  apply (proj1 (proj2 (get_genre_counts_batches scenario [("X", 2); ("Y", 1)]%nat))
           (list_source [] scenario_details)).
  intros batch _. reflexivity.
Defined.

Lemma get_artist_counts_table_witness :
  List.NoDup (map fst [("X", 2); ("Y", 1)]%nat)
  /\ Forall (fun kn => (1 <= snd kn)%nat) [("X", 2); ("Y", 1)]%nat
  /\ forall k, In k (map fst [("X", 2); ("Y", 1)]%nat)
               <-> In k (flat_map track_artists (listed scenario [("p", 0, 100)]%nat)).
Proof.
  apply (get_artist_counts_table 1 scenario "p" [("X", 2); ("Y", 1)]%nat [("p", 0, 100)]%nat).
  reflexivity.
Defined.

Lemma scenario_looks_up ts : looks_up (list_source ts scenario_details) scenario_details.
Proof.
  split; [reflexivity|]. intros i. unfold scenario_details.
  destruct (String.eqb_spec i "X") as [->|_]; [reflexivity|].
  destruct (String.eqb_spec i "Y") as [->|_]; reflexivity.
Qed.

(** C7. For every playlist [ts], over a client that pages through it,
    [get_artist_counts] returns (for enough fuel) a table in which the
    count of an artist is the number of (track, artist) pairs of [ts]
    with that artist: one increment per pair, on every page. Over a
    client that answers each lookup with the objects of the identifiers
    asked, the count [get_genre_counts] returns for a genre is the sum,
    over the artists of the table, of the artist's play-count once per
    occurrence of the genre among the artist's tags, so that
    [get_combined_genres] counts a genre once per (track, artist) pair
    whose artist carries it. Whatever the client answers, the artist
    counts are those of the tracks the calls listed and the genre counts
    those of the artist objects looked up, and an artist without genre
    tags leaves the table as it is. On the playlist with tracks A and B
    by X (pop, rock) and track C by Y (jazz), the artist counts are X:2,
    Y:1, the genre counts pop:2, rock:2, jazz:1, and the track total 3. *)
Theorem aggregation_counts (spotapi : Spotify) :
  (forall playlist_id ts fuel,
     pages_over spotapi playlist_id ts ->
     Nat.max 1 (ceil_div (length ts) 100) <= fuel ->
     exists artists_count calls,
       get_artist_counts fuel spotapi playlist_id = Some (artists_count, calls)
       /\ forall a, counter_get a artists_count
                    = occurrences a (flat_map track_artists ts))%nat
  /\ (forall details artists_count genre,
        looks_up spotapi details ->
        List.NoDup (map fst artists_count) ->
        counter_get genre (get_genre_counts spotapi artists_count)
        = list_sum (map (fun kn => occurrences genre
                                     (default [] (artist_genres (details (fst kn))))
                                   * snd kn)
                        artists_count))%nat
  /\ (forall playlist_id ts details fuel,
        pages_over spotapi playlist_id ts ->
        looks_up spotapi details ->
        Nat.max 1 (ceil_div (length ts) 100) <= fuel ->
        exists genres,
          get_combined_genres fuel spotapi playlist_id
          = Some (genres, get_track_total spotapi playlist_id)
          /\ forall genre, counter_get genre genres
                           = occurrences genre (played_tags details ts))%nat
  /\ (forall fuel playlist_id artists_count calls a,
        get_artist_counts fuel spotapi playlist_id = Some (artists_count, calls) ->
        counter_get a artists_count
          = occurrences a (flat_map track_artists (listed spotapi calls)))
  /\ (forall artists_count genre,
        counter_get genre (get_genre_counts spotapi artists_count)
          = list_sum (map (contribution artists_count genre)
                          (looked_up spotapi artists_count)))
  /\ (forall artists_count genres a,
        default [] (artist_genres a) = [] ->
        fold_artist artists_count genres a = genres)
  /\ get_artist_counts 1 scenario "p"
       = Some ([("X", 2); ("Y", 1)], [("p", 0, 100)])%nat
  /\ get_combined_genres 1 scenario "p"
       = Some ([("pop", 2); ("rock", 2); ("jazz", 1)], 3)%nat.
Proof.
  assert (Hrun : forall playlist_id ts fuel,
    pages_over spotapi playlist_id ts ->
    (Nat.max 1 (ceil_div (length ts) 100) <= fuel)%nat ->
    get_artist_counts fuel spotapi playlist_id
    = Some (count_page ts [],
            map (fun j => (playlist_id, 0 + j * 100, 100)%nat)
                (seq 0 (Nat.max 1 (ceil_div (length ts - 0) 100))))).
  { intros playlist_id ts fuel Hpages Hfuel. unfold get_artist_counts.
    rewrite (get_artist_counts_loop_pages spotapi playlist_id ts Hpages
               (Nat.max 1 (ceil_div (length ts) 100) - 1)).
    - reflexivity.
    - pose proof (ceil_div_100_bounds (length ts)). lia.
    - lia. }
  assert (Hgenre : forall details artists_count genre,
    looks_up spotapi details ->
    List.NoDup (map fst artists_count) ->
    counter_get genre (get_genre_counts spotapi artists_count)
    = list_sum (map (fun kn => occurrences genre
                                 (default [] (artist_genres (details (fst kn))))
                               * snd kn)%nat
                    artists_count)).
  { intros details artists_count genre Hlook Hnd.
    rewrite get_genre_counts_get, (looked_up_details spotapi details _ Hlook), List.map_map.
    destruct Hlook as [_ Hid].
    rewrite (List.map_ext _ (fun k => occurrences genre (default [] (artist_genres (details k)))
                                      * counter_get k artists_count)%nat).
    2:{ intros k. unfold contribution. now rewrite Hid. }
    apply (weighted_keys
             (fun k => occurrences genre (default [] (artist_genres (details k)))) _ Hnd). }
  split; [|split; [|split; [|split; [|split; [|split; [|split]]]]]].
  - intros playlist_id ts fuel Hpages Hfuel.
    eexists. eexists. split; [apply (Hrun _ _ _ Hpages Hfuel)|].
    intros a. now rewrite count_page_get.
  - exact Hgenre.
  - intros playlist_id ts details fuel Hpages Hlook Hfuel.
    exists (get_genre_counts spotapi (count_page ts [])). split.
    + unfold get_combined_genres. now rewrite (Hrun _ _ _ Hpages Hfuel).
    + intros genre.
      destruct (count_page_invariant ts []) as [Hnd _]; [split; constructor|].
      rewrite (Hgenre details _ genre Hlook Hnd).
      rewrite (weighted_count_page
                 (fun k => occurrences genre (default [] (artist_genres (details k)))) ts []).
      unfold played_tags. rewrite occurrences_flat_map. reflexivity.
  - intros fuel playlist_id artists_count calls a H. unfold get_artist_counts in H.
    apply get_artist_counts_loop_listed in H as (more & Hcalls & ->).
    simpl in Hcalls. subst more. now rewrite count_page_get.
  - intros artists_count genre. apply get_genre_counts_get.
  - intros artists_count genres a H. unfold fold_artist. now rewrite H.
  - reflexivity.
  - reflexivity.
Qed.

Lemma aggregation_counts_witness :
  (exists artists_count calls,
     get_artist_counts 3 (list_source three_pages scenario_details) "p"
     = Some (artists_count, calls)
     /\ forall a, counter_get a artists_count
                  = occurrences a (flat_map track_artists three_pages))
  /\ (exists genres,
        get_combined_genres 3 (list_source three_pages scenario_details) "p"
        = Some (genres, get_track_total (list_source three_pages scenario_details) "p")
        /\ forall genre, counter_get genre genres
                         = occurrences genre (played_tags scenario_details three_pages))
  /\ counter_get "X" [("X", 2); ("Y", 1)]%nat
     = occurrences "X" (flat_map track_artists (listed scenario [("p", 0, 100)]%nat))
  /\ fold_artist [("Z", 4)]%nat [("pop", 2)]%nat {| artist_id := "Z"; artist_genres := None |}
     = [("pop", 2)]%nat.
Proof.
  split; [|split; [|split]].
  - apply (proj1 (aggregation_counts (list_source three_pages scenario_details))
             "p" three_pages 3%nat).
    + apply list_source_pages_over.
    + vm_compute. lia.
  - apply (proj1 (proj2 (proj2 (aggregation_counts
                                  (list_source three_pages scenario_details))))
             "p" three_pages scenario_details 3%nat).
    + apply list_source_pages_over.
    + apply scenario_looks_up.
    + vm_compute. lia.
  - apply (proj1 (proj2 (proj2 (proj2 (aggregation_counts scenario)))) 1%nat "p").
    reflexivity.
  - apply (proj1 (proj2 (proj2 (proj2 (proj2 (proj2 (aggregation_counts scenario))))))).
    reflexivity.
Defined.

Lemma get_combined_genres_counts_plays_witness :
  exists genres,
    get_combined_genres 3 (list_source three_pages scenario_details) "p"
    = Some (genres, get_track_total (list_source three_pages scenario_details) "p")
    /\ (forall genre, counter_get genre genres
                      = occurrences genre (played_tags scenario_details three_pages))
    /\ counter_total genres = length (played_tags scenario_details three_pages).
Proof.
  apply (get_combined_genres_counts_plays (list_source three_pages scenario_details) "p"
           three_pages scenario_details 3).
  - apply list_source_pages_over.
  - apply scenario_looks_up.
  - vm_compute. lia.
Defined.

(** ** The two patterns, further *)

Section patterns_more.
Local Open Scope nat_scope.

Lemma strip_prefix_app p x : strip_prefix p (p ++ x) = Some x.
Proof. induction p as [|a p IH]; simpl; [reflexivity | now rewrite Ascii.eqb_refl]. Qed.

Lemma strip_prefix_Some p s t : strip_prefix p s = Some t -> s = p ++ t.
Proof.
  revert s. induction p as [|a p IH]; intros s; simpl.
  - intros H. now inversion H.
  - destruct s as [|b s]; [discriminate|].
    destruct (Ascii.eqb_spec a b) as [->|]; [|discriminate].
    intros H. now rewrite (IH s H).
Qed.

Lemma span_app p id more :
  Forall (fun c => p c = true) (list_ascii_of_string id) ->
  match more with String c _ => p c = false | EmptyString => True end ->
  span p (id ++ more) = (id, more).
Proof.
  intros Hid Hmore. induction id as [|c id IH]; simpl in *.
  - destruct more as [|c more]; [reflexivity|]. simpl. now rewrite Hmore.
  - inversion Hid as [|? ? Hc Hid']; subst. rewrite Hc, (IH Hid'). reflexivity.
Qed.

Lemma url_is_not_bare tail :
  is_bare_id ("https://open.spotify.com/playlist/" ++ tail) = false.
Proof. reflexivity. Qed.

(** X16. No input satisfies both patterns: whenever the bare-identifier
    pattern matches, the playlist-URL pattern does not. The order of the
    two tests in [extract_playlist_id] therefore never decides the
    result. *)
Theorem patterns_are_disjoint (input_str : string) :
  re_match id_pattern input_str <> None ->
  re_match playlist_url_pattern input_str = None.
Proof.
  intros Hid. apply re_match_id_pattern in Hid.
  pose proof (re_match_playlist_url_pattern input_str) as Hurl.
  destruct (re_match playlist_url_pattern input_str) as [m|]; [|reflexivity].
  exfalso. simpl in Hurl. unfold captured_id in Hurl.
  destruct (strip_prefix "https://open.spotify.com/playlist/" input_str) as [tail|] eqn:E;
    [|discriminate].
  apply strip_prefix_Some in E. subst input_str.
  rewrite url_is_not_bare in Hid. discriminate.
Qed.

(** X17. A playlist address followed by a non-empty run of word
    characters, and then by nothing or by a character that is not a word
    character (a [?], a [/], a space), gives exactly that run: the query
    string and the rest of the path are dropped. *)
Theorem extract_playlist_id_of_url (id more : string) :
  id <> "" ->
  Forall (fun c => word c = true) (list_ascii_of_string id) ->
  match more with String c _ => word c = false | EmptyString => True end ->
  extract_playlist_id ("https://open.spotify.com/playlist/" ++ id ++ more) = Ok id.
Proof.
  intros Hne Hid Hmore. rewrite extract_playlist_id_eq, url_is_not_bare.
  unfold captured_id. rewrite strip_prefix_app, (span_app word id more Hid Hmore).
  simpl. destruct id; [congruence | reflexivity].
Qed.

Lemma alnum_to_end_run id more :
  id <> "" ->
  Forall (fun c => alnum c = true) (list_ascii_of_string id) ->
  more = "" \/ more = String "010" "" ->
  alnum_to_end (id ++ more) = true.
Proof.
  intros Hne Hid Hmore. unfold alnum_to_end. rewrite (span_app alnum id more Hid).
  - destruct id; [congruence|]. destruct Hmore as [->| ->]; reflexivity.
  - destruct Hmore as [->| ->]; [exact I | reflexivity].
Qed.

(** X18. A non-empty run of ASCII letters and digits is returned as it
    is, with or without the prefix [spotify:playlist:] (which is kept),
    and also when a newline ends the input: the newline is accepted by
    [$] and stays in the result. *)
Theorem extract_playlist_id_of_bare_id (id more : string) :
  id <> "" ->
  Forall (fun c => alnum c = true) (list_ascii_of_string id) ->
  more = "" \/ more = String "010" "" ->
  extract_playlist_id (id ++ more) = Ok (id ++ more)
  /\ extract_playlist_id ("spotify:playlist:" ++ id ++ more)
     = Ok ("spotify:playlist:" ++ id ++ more).
Proof.
  intros Hne Hid Hmore. pose proof (alnum_to_end_run id more Hne Hid Hmore) as Hrun.
  split; rewrite extract_playlist_id_eq; unfold is_bare_id.
  - rewrite Hrun. destruct (strip_prefix "spotify:playlist:" (id ++ more));
      [now rewrite orb_true_r | reflexivity].
  - rewrite strip_prefix_app, Hrun. reflexivity.
Qed.

End patterns_more.

Lemma patterns_are_disjoint_witness :
  re_match playlist_url_pattern "37i9dQZF1DXcBWIGoYBM5M" = None.
Proof.
  apply (patterns_are_disjoint "37i9dQZF1DXcBWIGoYBM5M"). vm_compute. discriminate.
Defined.

Lemma extract_playlist_id_of_url_witness :
  extract_playlist_id "https://open.spotify.com/playlist/abc_7/tracks" = Ok "abc_7".
Proof.
  apply (extract_playlist_id_of_url "abc_7" "/tracks").
  - discriminate.
  - repeat constructor.
  - reflexivity.
Defined.

Lemma extract_playlist_id_of_bare_id_witness :
  extract_playlist_id ("abc7" ++ String "010" "") = Ok ("abc7" ++ String "010" "")
  /\ extract_playlist_id ("spotify:playlist:" ++ "abc7" ++ String "010" "")
     = Ok ("spotify:playlist:" ++ "abc7" ++ String "010" "").
Proof.
  apply (extract_playlist_id_of_bare_id "abc7" (String "010" "")).
  - discriminate.
  - repeat constructor.
  - now right.
Defined.

(** ** The report *)

Section report.
Local Open Scope nat_scope.

Lemma item_le_total a b : item_le a b = false -> item_le b a = true.
Proof.
  unfold item_le. destruct a as [ka na], b as [kb nb]. simpl.
  destruct (Nat.ltb_spec na nb); [discriminate|].
  destruct (Nat.ltb_spec nb na); [reflexivity|].
  assert (na = nb) by lia. subst. rewrite Nat.eqb_refl. simpl.
  destruct (String.leb_total ka kb) as [H1|H1]; rewrite H1; [discriminate | reflexivity].
Qed.

Lemma insert_desc_Permutation x l : Permutation (insert_desc x l) (x :: l).
Proof.
  induction l as [|y l IH]; simpl.
  - apply Permutation_refl.
  - destruct (item_le y x).
    + apply Permutation_refl.
    + apply (Permutation_trans (l' := y :: x :: l)).
      * now apply perm_skip.
      * apply perm_swap.
Qed.

Lemma insert_desc_Sorted x l :
  Sorted (fun a b => item_le b a = true) l ->
  Sorted (fun a b => item_le b a = true) (insert_desc x l).
Proof.
  induction l as [|y l IH]; simpl; intros Hs.
  - repeat constructor.
  - destruct (item_le y x) eqn:E.
    + constructor; [exact Hs | now constructor].
    + inversion Hs as [|? ? Hs' Hhd]; subst. constructor; [now apply IH|].
      destruct l as [|z l]; simpl.
      * constructor. now apply item_le_total.
      * destruct (item_le z x).
        -- constructor. now apply item_le_total.
        -- inversion Hhd; subst. now constructor.
Qed.

(** X19. The rows of the report are the genre table's entries, each
    once, largest count first and, among equal counts, the later name
    (by code point) first: every row's key [(count, name)] is at least
    the next row's. *)
Theorem sorted_desc_spec (items : list (string * nat)) :
  Permutation (sorted_desc items) items
  /\ Sorted (fun a b => item_le b a = true) (sorted_desc items).
Proof.
  unfold sorted_desc. induction items as [|x items [IHp IHs]]; simpl.
  - split; constructor.
  - split.
    + apply (Permutation_trans (insert_desc_Permutation x _)). now apply perm_skip.
    + now apply insert_desc_Sorted.
Qed.

End report.

(** ** The authorisation address *)

Section auth_url.
Local Open Scope nat_scope.
Import authorisation.

Lemma count_char_app c s1 s2 :
  count_char c (s1 ++ s2) = count_char c s1 + count_char c s2.
Proof. induction s1 as [|a s1 IH]; simpl; [reflexivity | rewrite IH; lia]. Qed.

Lemma hex_digit_alnum n : alnum (hex_digit n) = true.
Proof. do 16 (destruct n as [|n]; [reflexivity|]). reflexivity. Qed.

Lemma hex_value_digit n : n < 16 -> hex_value (hex_digit n) = n.
Proof. intros Hn. do 16 (destruct n as [|n]; [reflexivity|]). lia. Qed.

Lemma Forall_app_string (P : ascii -> Prop) s1 s2 :
  Forall P (list_ascii_of_string s1) -> Forall P (list_ascii_of_string s2) ->
  Forall P (list_ascii_of_string (s1 ++ s2)).
Proof.
  intros H1 H2. induction s1 as [|a s1 IH]; simpl; [exact H2|].
  inversion H1; subst. constructor; auto.
Qed.

Lemma quote_plus_safe s :
  Forall (fun c => query_safe c = true) (list_ascii_of_string (quote_plus s)).
Proof.
  induction s as [|c s IH]; simpl; [constructor|].
  apply Forall_app_string; [|exact IH].
  destruct (Ascii.eqb c " "); [repeat constructor|].
  destruct (always_safe c) eqn:E.
  - simpl. constructor; [|constructor]. unfold query_safe. now rewrite E.
  - unfold utf8. destruct (nat_of_ascii c <? 128); simpl;
      repeat (constructor;
              [first [reflexivity
                     | unfold query_safe, always_safe; now rewrite hex_digit_alnum]|]);
      constructor.
Qed.

Lemma count_char_unsafe c s :
  query_safe c = false ->
  Forall (fun c' => query_safe c' = true) (list_ascii_of_string s) ->
  count_char c s = 0.
Proof.
  intros Hc. induction s as [|a s IH]; simpl; intros Hs; [reflexivity|].
  inversion Hs as [|? ? Ha Hs']; subst.
  destruct (Ascii.eqb_spec c a) as [->|_]; [congruence | now apply IH].
Qed.

(** X20. Whatever the client identifier, the authorisation address is
    the fixed address, then [client_id=] with the identifier escaped,
    then the three fixed parameters. The escaped identifier holds only
    letters, digits and [_.-~+%], so the address always has exactly one
    [?], three [&] and four [=]: an identifier cannot add, end or rename
    a parameter. *)
Theorem build_auth_url_shape (client_id : string) :
  build_auth_url client_id
  = "https://accounts.spotify.com/authorize?client_id=" ++ quote_plus client_id
    ++ "&response_type=code&redirect_uri=https%3A%2F%2Fgithub.com%2FLostInLunacy%2F&scope=user-library-read+playlist-read-private+playlist-read-collaborative+playlist-modify-public+playlist-modify-private+user-library-read"
  /\ Forall (fun c => query_safe c = true) (list_ascii_of_string (quote_plus client_id))
  /\ count_char "?" (build_auth_url client_id) = 1
  /\ count_char "&" (build_auth_url client_id) = 3
  /\ count_char "=" (build_auth_url client_id) = 4
  /\ count_char "#" (build_auth_url client_id) = 0.
Proof.
  pose proof (quote_plus_safe client_id) as Hsafe.
  assert (Hshape : build_auth_url client_id
    = "https://accounts.spotify.com/authorize?client_id=" ++ quote_plus client_id
      ++ "&response_type=code&redirect_uri=https%3A%2F%2Fgithub.com%2FLostInLunacy%2F&scope=user-library-read+playlist-read-private+playlist-read-collaborative+playlist-modify-public+playlist-modify-private+user-library-read")
    by reflexivity.
  split; [exact Hshape|]. split; [exact Hsafe|].
  rewrite Hshape. rewrite !count_char_app.
  rewrite !(count_char_unsafe _ (quote_plus client_id)) by (reflexivity || exact Hsafe).
  repeat split; reflexivity.
Qed.

End auth_url.

Section auth_url_reading.
Local Open Scope nat_scope.
Import authorisation.

Lemma always_safe_plain c :
  always_safe c = true ->
  (nat_of_ascii c <? 128) = true /\ Ascii.eqb c "%" = false /\ Ascii.eqb c "+" = false.
Proof.
  destruct c as [[] [] [] [] [] [] [] []]; vm_compute; intros H;
    first [discriminate H | repeat split].
Qed.

Lemma unquote_percent fuel b more :
  b < 256 ->
  unquote_bytes (S fuel) (percent b ++ more) = b :: unquote_bytes fuel more.
Proof.
  intros Hb. unfold percent.
  change (String "%" (String (hex_digit (b / 16)) (String (hex_digit (b mod 16)) "")) ++ more)
    with (String "%" (String (hex_digit (b / 16)) (String (hex_digit (b mod 16)) more))).
  cbn [unquote_bytes]. change (Ascii.eqb "%" "%") with true. cbn iota.
  rewrite !hex_value_digit.
  - f_equal. pose proof (Nat.div_mod_eq b 16). lia.
  - apply Nat.mod_upper_bound. discriminate.
  - apply Nat.Div0.div_lt_upper_bound. lia.
Qed.

Lemma length_append_string s1 s2 :
  String.length (s1 ++ s2) = String.length s1 + String.length s2.
Proof. induction s1 as [|a s1 IH]; simpl; [reflexivity | now rewrite IH]. Qed.

Lemma append_assoc_string s1 s2 s3 : (s1 ++ s2) ++ s3 = s1 ++ (s2 ++ s3).
Proof.
  induction s1 as [|a s1 IH]; [reflexivity|].
  change (String a ((s1 ++ s2) ++ s3) = String a (s1 ++ (s2 ++ s3))). now f_equal.
Qed.

Lemma unquote_bytes_quote_plus s :
  forall fuel, String.length (quote_plus s) <= fuel ->
  unquote_bytes fuel (quote_plus s) = flat_map utf8 (list_ascii_of_string s).
Proof.
  induction s as [|c s IH]; intros fuel Hfuel.
  - destruct fuel; reflexivity.
  - cbn [quote_plus list_ascii_of_string flat_map] in *.
    pose proof (nat_ascii_bounded c) as Hc.
    destruct (Ascii.eqb_spec c " ") as [->|Hsp].
    + destruct fuel as [|fuel]; [simpl in Hfuel; lia|].
      change ("+" ++ quote_plus s) with (String "+" (quote_plus s)) in *.
      cbn [unquote_bytes]. change (Ascii.eqb "+" "%") with false.
      change (Ascii.eqb "+" "+") with true. cbn iota.
      rewrite IH by (simpl in Hfuel; lia). reflexivity.
    + destruct (always_safe c) eqn:Hsafe.
      * destruct (always_safe_plain c Hsafe) as (Hlt & Hpc & Hpl).
        destruct fuel as [|fuel]; [simpl in Hfuel; lia|].
        change (String c "" ++ quote_plus s) with (String c (quote_plus s)) in *.
        cbn [unquote_bytes]. rewrite Hpc, Hpl.
        rewrite IH by (simpl in Hfuel; lia). unfold utf8. now rewrite Hlt.
      * unfold utf8 in *. destruct (nat_of_ascii c <? 128) eqn:Hlt.
        -- cbn [map String.concat] in *.
           rewrite length_append_string in Hfuel.
           destruct fuel as [|fuel]; [simpl in Hfuel; lia|].
           rewrite unquote_percent by exact Hc.
           rewrite IH by (simpl in Hfuel; lia). reflexivity.
        -- cbn [map String.concat] in *.
           rewrite !length_append_string in Hfuel.
           change (String.length (percent ?x)) with 3 in Hfuel.
           destruct fuel as [|[|fuel]]; try (simpl in Hfuel; lia).
           pose proof (Nat.Div0.div_lt_upper_bound (nat_of_ascii c) 64 4) as Hd.
           pose proof (Nat.mod_upper_bound (nat_of_ascii c) 64) as Hm.
           rewrite append_assoc_string.
           rewrite unquote_percent by lia.
           change (("" ++ percent (128 + nat_of_ascii c mod 64)) ++ quote_plus s)
             with (percent (128 + nat_of_ascii c mod 64) ++ quote_plus s).
           rewrite unquote_percent by lia.
           rewrite IH by (simpl in Hfuel; lia). reflexivity.
Qed.

Lemma utf8_decode_utf8 c bytes :
  utf8_decode (utf8 c ++ bytes) = String c (utf8_decode bytes).
Proof.
  unfold utf8. destruct (Nat.ltb_spec (nat_of_ascii c) 128) as [Hlt|Hge].
  - cbn [app utf8_decode]. destruct (Nat.ltb_spec (nat_of_ascii c) 128); [|lia].
    now rewrite ascii_nat_embedding.
  - cbn [app utf8_decode].
    pose proof (Nat.div_mod_eq (nat_of_ascii c) 64) as Hdm.
    remember (nat_of_ascii c / 64) as q eqn:Hq. remember (nat_of_ascii c mod 64) as r eqn:Hr.
    clear Hq Hr.
    destruct (Nat.ltb_spec (192 + q) 128); [lia|].
    f_equal. rewrite <- (ascii_nat_embedding c). f_equal. lia.
Qed.

Lemma utf8_decode_flat_map l :
  utf8_decode (flat_map utf8 l) = string_of_list_ascii l.
Proof.
  induction l as [|c l IH]; [reflexivity|].
  cbn [flat_map string_of_list_ascii]. now rewrite utf8_decode_utf8, IH.
Qed.

Lemma unquote_plus_quote_plus s : unquote_plus (quote_plus s) = s.
Proof.
  unfold unquote_plus. rewrite unquote_bytes_quote_plus by lia.
  rewrite utf8_decode_flat_map. apply string_of_list_ascii_of_string.
Qed.

Lemma append_inv_head p x y : p ++ x = p ++ y -> x = y.
Proof. induction p as [|a p IH]; simpl; intros H; [exact H | inversion H; auto]. Qed.

Lemma append_inv_tail x y suffix : x ++ suffix = y ++ suffix -> x = y.
Proof.
  revert y. induction x as [|a x IH]; intros [|b y] H; simpl in H.
  - reflexivity.
  - exfalso. apply (f_equal String.length) in H.
    rewrite !length_append_string in H. simpl in H. lia.
  - exfalso. apply (f_equal String.length) in H.
    rewrite !length_append_string in H. simpl in H. lia.
  - inversion H. f_equal. now apply IH.
Qed.

(** X21. Different client identifiers give different authorisation
    addresses: the escaping of [quote_plus] loses nothing, so the
    identifier sent can be read back from the address. *)
Theorem build_auth_url_injective (a b : string) :
  a <> b -> build_auth_url a <> build_auth_url b.
Proof.
  intros Hne Heq. apply Hne.
  change (build_auth_url a)
    with ("https://accounts.spotify.com/authorize?client_id=" ++ quote_plus a
          ++ "&response_type=code&redirect_uri=https%3A%2F%2Fgithub.com%2FLostInLunacy%2F&scope=user-library-read+playlist-read-private+playlist-read-collaborative+playlist-modify-public+playlist-modify-private+user-library-read")
    in Heq.
  change (build_auth_url b)
    with ("https://accounts.spotify.com/authorize?client_id=" ++ quote_plus b
          ++ "&response_type=code&redirect_uri=https%3A%2F%2Fgithub.com%2FLostInLunacy%2F&scope=user-library-read+playlist-read-private+playlist-read-collaborative+playlist-modify-public+playlist-modify-private+user-library-read")
    in Heq.
  apply append_inv_head, append_inv_tail in Heq.
  rewrite <- (unquote_plus_quote_plus a), <- (unquote_plus_quote_plus b). now rewrite Heq.
Qed.

End auth_url_reading.

Lemma build_auth_url_injective_witness :
  authorisation.build_auth_url "a b" <> authorisation.build_auth_url "a+b".
Proof.
  apply (build_auth_url_injective "a b" "a+b"). discriminate.
Defined.

(** ** The playlist report *)

Section playlist_report.
Context (L : FernetLib) (title : string -> string).
Import main_canvas.

(** X22. A playlist reference that [extract_playlist_id] rejects makes
    [retrieve_playlist_data] raise its [ValueError] before the token
    cache is looked at, the world being as it was. With a valid reference
    and no cached token (no cache file, or an empty record in it) the
    text shown is the "not found" message, whatever the client would
    answer, and the world is as it was. With a valid reference and a
    cache file holding a non-empty record none of whose values is the
    text [access_token] or [refresh_token], the text shown is the report
    of what [get_combined_genres] returns. *)
Theorem retrieve_playlist_data_outcomes
    (handler : CustomCacheFileHandler L) (fuel : nat) (spotapi : Spotify)
    (playlist_url : string) (w : world) :
  (forall e, extract_playlist_id playlist_url = Raise e ->
     retrieve_playlist_data L title handler fuel spotapi playlist_url w = (Raise e, w))
  /\ (forall id, extract_playlist_id playlist_url = Ok id ->
        fs w !! cache_path L handler = None
        \/ (exists t, fs w !! cache_path L handler = Some (File (Json (VDict [])) t)) ->
        retrieve_playlist_data L title handler fuel spotapi playlist_url w
        = (Ok (Some "Access token not found. Please authenticate first."), w))
  /\ (forall id e d t playlist_data track_total,
        extract_playlist_id playlist_url = Ok id ->
        fs w !! cache_path L handler = Some (File (Json (VDict (e :: d))) t) ->
        (forall k x, In (k, x) (e :: d) -> value_in x ATTRS_TO_ENCRYPT = false) ->
        get_combined_genres fuel spotapi id = Some (playlist_data, track_total) ->
        fst (retrieve_playlist_data L title handler fuel spotapi playlist_url w)
        = Ok (Some (report_text title playlist_data track_total))).
Proof.
  unfold retrieve_playlist_data. split; [|split].
  - intros e He. unfold bind, lift. now rewrite He.
  - intros id Hid Hfile. unfold bind at 1. unfold lift at 1. rewrite Hid.
    destruct Hfile as [Hnone|[t Hempty]].
    + erewrite bind_Ok.
      2:{ unfold get_cached_token.
          now rewrite (bind_Ok _ _ _ _ _ (os_path_exists_None _ _ Hnone)). }
      reflexivity.
    + erewrite bind_Ok.
      2:{ apply (get_cached_token_plain L handler [] w t Hempty). intros k x []. }
      reflexivity.
  - intros id e d t data total Hid Hfile Hplain Hrun.
    unfold bind at 1. unfold lift at 1. rewrite Hid.
    rewrite (bind_Ok _ _ _ _ _ (get_cached_token_plain L handler (e :: d) w t Hfile Hplain)).
    cbn [truthy]. now rewrite Hrun.
Qed.

End playlist_report.

Lemma retrieve_playlist_data_outcomes_witness :
  main_canvas.retrieve_playlist_data stub_fernet (fun s => s) stub_handler 1 scenario
    "not a url" empty_cache
  = (Raise (ValueError "Invalid playlist URL or playlist ID: not a url"), empty_cache)
  /\ main_canvas.retrieve_playlist_data stub_fernet (fun s => s) stub_handler 1 scenario
       "37i9dQZF1DXcBWIGoYBM5M" empty_cache
     = (Ok (Some "Access token not found. Please authenticate first."), empty_cache)
  /\ fst (main_canvas.retrieve_playlist_data stub_fernet (fun s => s) stub_handler 1 scenario
            "37i9dQZF1DXcBWIGoYBM5M"
            (with_token_file (Json (VDict [("expires_at", VInt 3600)]))))
     = (Ok (Some (report_text (fun s => s) [("pop", 2); ("rock", 2); ("jazz", 1)]%nat 3))).
Proof.
  split; [|split].
  - apply (proj1 (retrieve_playlist_data_outcomes stub_fernet (fun s => s) stub_handler
                    1 scenario "not a url" empty_cache)).
    reflexivity.
  - apply (proj1 (proj2 (retrieve_playlist_data_outcomes stub_fernet (fun s => s)
                           stub_handler 1 scenario "37i9dQZF1DXcBWIGoYBM5M"
                           empty_cache)) "37i9dQZF1DXcBWIGoYBM5M").
    + reflexivity.
    + left. reflexivity.
  - apply (proj2 (proj2 (retrieve_playlist_data_outcomes stub_fernet (fun s => s)
                           stub_handler 1 scenario "37i9dQZF1DXcBWIGoYBM5M"
                           (with_token_file (Json (VDict [("expires_at", VInt 3600)])))))
             "37i9dQZF1DXcBWIGoYBM5M" ("expires_at", VInt 3600) [] 5).
    + reflexivity.
    + reflexivity.
    + intros k x [H|[]]. inversion H. reflexivity.
    + reflexivity.
Defined.

(** ** The two handlers together *)

Section handlers_together.
Context (L : FernetLib) (HL : FernetLaws L).

(** X23. The module creates the credential store and then the token
    cache handler: when both constructions succeed, the two hold the same
    key, and the second construction changes nothing (it finds the key
    file the first one left or found). *)
Theorem handlers_share_the_key
    (w w1 w2 : world) (store : CredentialsFileHandler L) (cache : CustomCacheFileHandler L) :
  CredentialsFileHandler_init L w = (Ok store, w1) ->
  CustomCacheFileHandler_init L w1 = (Ok cache, w2) ->
  fernet_key L cache = credentials_fernet_key L store /\ w2 = w1.
Proof.
  intros Hstore Hcache. apply CredentialsFileHandler_init_holds in Hstore.
  unfold CustomCacheFileHandler_init in Hcache.
  rewrite (bind_Ok _ _ _ _ _ (get_fernet_key_of_holds L w1 _ Hstore)) in Hcache.
  unfold ret in Hcache. inversion Hcache. split; reflexivity.
Qed.

Lemma save_credentials_writes (self : CredentialsFileHandler L) (creds : dict) w :
  writable credentials_path w ->
  creds <> [] ->
  (forall k x, In (k, x) creds -> exists s, x = VStr s) ->
  exists d' w',
    save_credentials_to_file L self (Some creds) w
    = (Ok tt, written credentials_path (Json (VDict d')) w')
    /\ same_disk w w'
    /\ forall w0, dict_comprehension
                    (fun _ v => util.decrypt_str L (credentials_fernet_key L self) v) d' w0
                  = (Ok creds, w0).
Proof.
  intros Hw Hne Hstr.
  destruct (encrypt_credentials_total L HL (credentials_fernet_key L self) creds w Hstr)
    as (d' & w' & Henc & [Hfs Hc] & Hdec).
  exists d', w'. split; [|split; [split; assumption | exact Hdec]].
  unfold save_credentials_to_file. destruct creds as [|e creds]; [congruence|].
  cbn [truthy]. unfold bind at 1. unfold ret at 1. rewrite (bind_Ok _ _ _ _ _ Henc).
  apply write_file_writable. unfold writable in *. now rewrite Hfs.
Qed.

Lemma retrieve_credentials_of_file (self : CredentialsFileHandler L) (d' creds : dict) w t :
  key_file_holds L w (credentials_fernet_key L self) ->
  fs w !! credentials_path = Some (File (Json (VDict d')) t) ->
  (forall w0, dict_comprehension
                (fun _ v => util.decrypt_str L (credentials_fernet_key L self) v) d' w0
              = (Ok creds, w0)) ->
  retrieve_credentials L self w
  = (Ok (Some creds, {| credentials_fernet_key := credentials_fernet_key L self;
                        credentials := Some creds |}), w).
Proof.
  intros Hkey Hfile Hdec. unfold retrieve_credentials.
  rewrite (bind_Ok _ _ _ _ _ (get_fernet_key_of_holds L w _ Hkey)).
  unfold load_credentials_data, bind at 1, read_file. rewrite Hfile.
  unfold lift, json_load. unfold decrypt_credentials, bind, lift, items.
  now rewrite Hdec.
Qed.

Lemma writable_written p c w : writable p w -> writable p (written p c w).
Proof.
  intros _. unfold writable. now rewrite written_lookup.
Qed.

(** X24. The credentials file is replaced as a whole: after a save of one
    record of strings and then of another, a retrieve returns the second
    record exactly, with no field of the first left in it. *)
Theorem second_credentials_replace_first
    (self : CredentialsFileHandler L) (first second : dict) (w : world) :
  key_file_holds L w (credentials_fernet_key L self) ->
  writable credentials_path w ->
  first <> [] -> second <> [] ->
  (forall k x, In (k, x) first -> exists s, x = VStr s) ->
  (forall k x, In (k, x) second -> exists s, x = VStr s) ->
  exists w1 w2 self',
    save_credentials_to_file L self (Some first) w = (Ok tt, w1)
    /\ save_credentials_to_file L self (Some second) w1 = (Ok tt, w2)
    /\ retrieve_credentials L self w2 = (Ok (Some second, self'), w2)
    /\ credentials L self' = Some second.
Proof.
  intros Hkey Hw Hne1 Hne2 Hstr1 Hstr2.
  destruct (save_credentials_writes self first w Hw Hne1 Hstr1)
    as (d1 & w' & Hsave1 & [Hfs1 Hc1] & _).
  assert (Hw' : writable credentials_path w') by (unfold writable in *; now rewrite Hfs1).
  assert (Hkey' : key_file_holds L w' (credentials_fernet_key L self)).
  { destruct Hkey as (c0 & t0 & Hk & Hf). exists c0, t0. rewrite Hfs1. eauto. }
  pose (w1 := written credentials_path (Json (VDict d1)) w').
  destruct (save_credentials_writes self second w1 (writable_written _ _ _ Hw') Hne2 Hstr2)
    as (d2 & w1' & Hsave2 & [Hfs2 Hc2] & Hdec2).
  assert (Hkey1 : key_file_holds L w1' (credentials_fernet_key L self)).
  { pose proof (key_file_holds_written L w' _ (Json (VDict d1)) Hkey') as Hk1.
    destruct Hk1 as (c0 & t0 & Hk & Hf). exists c0, t0. rewrite Hfs2. eauto. }
  exists w1, (written credentials_path (Json (VDict d2)) w1'). eexists.
  split; [exact Hsave1|]. split; [exact Hsave2|]. split.
  - apply (retrieve_credentials_of_file self d2 second _ (clock w1')).
    + now apply key_file_holds_written.
    + apply written_lookup.
    + exact Hdec2.
  - reflexivity.
Qed.

End handlers_together.

Lemma handlers_share_the_key_witness :
  file_handler.fernet_key stub_fernet
    {| cache_path := CUSTOM_CACHE_PATH; fernet_key := "k" : fernet stub_fernet |}
  = credentials_fernet_key stub_fernet (stub_store None)
  /\ keyed_cache = keyed_cache.
Proof.
  apply (handlers_share_the_key stub_fernet keyed_cache keyed_cache keyed_cache
           (stub_store None)
           {| cache_path := CUSTOM_CACHE_PATH; fernet_key := "k" : fernet stub_fernet |});
    reflexivity.
Defined.

Lemma second_credentials_replace_first_witness :
  exists w1 w2 self',
    save_credentials_to_file stub_fernet (stub_store None)
      (Some [("client_id", VStr "old"); ("note", VStr "first")]) keyed_cache = (Ok tt, w1)
    /\ save_credentials_to_file stub_fernet (stub_store None) (Some sample_credentials) w1
       = (Ok tt, w2)
    /\ retrieve_credentials stub_fernet (stub_store None) w2
       = (Ok (Some sample_credentials, self'), w2)
    /\ credentials stub_fernet self' = Some sample_credentials.
Proof.
  apply (second_credentials_replace_first stub_fernet stub_fernet_laws (stub_store None)
           [("client_id", VStr "old"); ("note", VStr "first")] sample_credentials keyed_cache).
  - exists (Raw "k"), 0. split; reflexivity.
  - exists 0. reflexivity.
  - discriminate.
  - discriminate.
  - intros k x Hin. simpl in Hin.
    repeat (destruct Hin as [Hin|Hin]; [inversion Hin; eauto|]). destruct Hin.
  - intros k x Hin. simpl in Hin.
    repeat (destruct Hin as [Hin|Hin]; [inversion Hin; eauto|]). destruct Hin.
Defined.
